(** * Token-bucket rate limiter (rate-limiter-cpp/server.cc)

    A shallow embedding of [TokenBucket] and [RateLimiterServiceImpl].

    Numbers.  The C++ code computes with [double].  The development has
    the code twice.  In [Bucket] and [Service] a double is an exact
    rational ([Q]); a quotient by zero and a [static_cast<int64_t>] of a
    value that does not fit in 64 bits are [None].  The general theorems
    are proved there, and they are kept to what rounding cannot change:
    order between token counts, which branch is taken on given
    comparisons, what is stored where.  In [Binary64], [Bucket64] and
    [Service64] a double is a primitive binary64 float, so every
    operation rounds as the machine does and NaN and the infinities
    exist; the exact amounts, and the inputs on which rounding or NaN
    decides, are run there.

    Time.  [std::chrono::steady_clock::now()] is a counter of nanoseconds
    ([Z]).  Bucket methods take the reading as an argument; the service
    layer draws its readings from a monotone clock held in the state.

    Sharing.  The registry stores [shared_ptr<TokenBucket>].  The model is
    sequential: an RPC runs to completion, so the only live handle on a
    bucket is the registry's and the pointee is stored by value under its
    key; a method call through the handle writes the new value back. *)

From Stdlib Require Import ZArith QArith Qminmax Qround Lqa Lia.
From Stdlib Require PrimFloat FloatOps SpecFloat Uint63 FloatAxioms.
From stdpp Require Import gmap strings list.

Local Open Scope Z_scope.

(** ** Doubles as rationals *)

Module Double.

(** [a < b] and [a >= b] on doubles. *)
Definition ltb (a b : Q) : bool :=
  match (a ?= b)%Q with Lt => true | _ => false end.

Definition geb (a b : Q) : bool := Qle_bool b a.

Definition leb (a b : Q) : bool := Qle_bool a b.

(** [std::min(a, b)] is [(b < a) ? b : a]. *)
Definition std_min (a b : Q) : Q := if ltb b a then b else a.

(** [x / y]; a zero divisor leaves the finite numbers. *)
Definition div (x y : Q) : option Q :=
  if Qeq_bool y 0 then None else Some (x / y)%Q.

(** Conversion of a [uint32_t] to double is exact. *)
Definition of_uint32 (n : N) : Q := inject_Z (Z.of_N n).

Definition int64_min : Z := - 2 ^ 63.
Definition int64_max : Z := 2 ^ 63 - 1.

(** Rounding toward zero, the direction of a float-to-integer cast. *)
Definition truncate (q : Q) : Z := Z.quot (Qnum q) (Z.pos (Qden q)).

(** [static_cast<int64_t>(x)]: truncation, undefined out of range. *)
Definition static_cast_int64 (x : Q) : option Z :=
  let z := truncate x in
  if (int64_min <=? z) && (z <=? int64_max) then Some z else None.

(** [std::chrono::duration<double>(d).count()] for [d] in nanoseconds. *)
Definition seconds_of_ns (d : Z) : Q := d # 1000000000.

(** [duration_cast<milliseconds>(d).count()] for [d] in nanoseconds. *)
Definition ms_of_ns (d : Z) : Z := Z.quot d 1000000.

End Double.

(** ** TokenBucket *)

Record TokenBucket := mkTokenBucket {
  refill_rate_ : Q;        (* tokens per second *)
  bucket_capacity_ : Q;    (* maximum tokens *)
  tokens_ : Q;             (* current tokens *)
  last_refill_ : Z         (* steady_clock reading, ns *)
}.

Record AllowResult := mkAllowResult {
  ar_allowed : bool;
  ar_retry_after_ms : option Z;
  ar_remaining : Q
}.

Module Bucket.

(** The constructor: a full bucket stamped with the current reading. *)
Definition make (refill_rate bucket_capacity : Q) (now : Z) : TokenBucket :=
  {| refill_rate_ := refill_rate;
     bucket_capacity_ := bucket_capacity;
     tokens_ := bucket_capacity;
     last_refill_ := now |}.

Definition elapsed_seconds (now : Z) (b : TokenBucket) : Q :=
  Double.seconds_of_ns (now - last_refill_ b).

Definition new_tokens (now : Z) (b : TokenBucket) : Q :=
  (elapsed_seconds now b * refill_rate_ b)%Q.

Definition refill (now : Z) (b : TokenBucket) : TokenBucket :=
  if Double.ltb 0 (new_tokens now b) then
    {| refill_rate_ := refill_rate_ b;
       bucket_capacity_ := bucket_capacity_ b;
       tokens_ := Double.std_min (bucket_capacity_ b)
                    (tokens_ b + new_tokens now b)%Q;
       last_refill_ := now |}
  else b.

Definition set_tokens (t : Q) (b : TokenBucket) : TokenBucket :=
  {| refill_rate_ := refill_rate_ b;
     bucket_capacity_ := bucket_capacity_ b;
     tokens_ := t;
     last_refill_ := last_refill_ b |}.

(** The wait reported on rejection, from the refilled token count. *)
Definition retry_after (token_cost : N) (tokens refill_rate : Q) : option Z :=
  let missing_tokens := (Double.of_uint32 token_cost - tokens)%Q in
  seconds_to_wait ← Double.div missing_tokens refill_rate;
  Double.static_cast_int64 (seconds_to_wait * 1000)%Q.

Definition allow (token_cost : N) (now : Z) (b : TokenBucket)
  : AllowResult * TokenBucket :=
  let b1 := refill now b in
  if Double.geb (tokens_ b1) (Double.of_uint32 token_cost) then
    let b2 := set_tokens (tokens_ b1 - Double.of_uint32 token_cost)%Q b1 in
    (mkAllowResult true (Some 0) (tokens_ b2), b2)
  else
    (mkAllowResult false
       (retry_after token_cost (tokens_ b1) (refill_rate_ b1))
       (tokens_ b1), b1).

Definition get_tokens (now : Z) (b : TokenBucket) : Q * TokenBucket :=
  let b1 := refill now b in (tokens_ b1, b1).

Definition get_refill_rate (b : TokenBucket) : Q := refill_rate_ b.

Definition get_capacity (b : TokenBucket) : Q := bucket_capacity_ b.

Definition get_last_refill_ms (now : Z) (b : TokenBucket) : Z :=
  Double.ms_of_ns (now - last_refill_ b).

End Bucket.

(** ** The retry-after arithmetic in IEEE-754 binary64

    The same expressions as [Bucket.retry_after], over the kernel's
    primitive floats, which are binary64 with round-to-nearest-even. *)

Module Binary64.

Import PrimFloat.

Definition of_uint32 (n : N) : float :=
  PrimFloat.of_uint63 (Uint63.of_Z (Z.of_N n)).

(** [static_cast<int64_t>(x)]: the integer part of a finite value. *)
Definition static_cast_int64 (x : float) : option Z :=
  match FloatOps.Prim2SF x with
  | SpecFloat.S754_zero _ => Some 0
  | SpecFloat.S754_finite s m e =>
      let v := if 0 <=? e then Z.pos m * 2 ^ e else Z.pos m / 2 ^ (- e) in
      let z := if s then - v else v in
      if (Double.int64_min <=? z) && (z <=? Double.int64_max)
      then Some z else None
  | _ => None
  end.

Definition retry_after (token_cost : N) (tokens refill_rate : float)
  : option Z :=
  let missing_tokens := (of_uint32 token_cost - tokens)%float in
  let seconds_to_wait := (missing_tokens / refill_rate)%float in
  static_cast_int64 (seconds_to_wait * 1000)%float.

End Binary64.

(** ** Sequences of bucket operations *)




(** [0 <= tokens <= capacity]. *)
Definition tokens_in_range (b : TokenBucket) : Prop :=
  (0 <= tokens_ b)%Q ∧ (tokens_ b <= bucket_capacity_ b)%Q.

Definition positive_config (b : TokenBucket) : Prop :=
  (0 < refill_rate_ b)%Q ∧ (0 < bucket_capacity_ b)%Q.

(** ** The service state and its clock *)

(** [ticks] lists by how much the steady clock has advanced at each of the
    coming readings; once it is used up the clock stands still. *)
Record World := mkWorld {
  rate_limiters_ : gmap string TokenBucket;
  steady_clock : Z;
  ticks : list N
}.

Definition M (A : Type) : Type := World → A * World.

#[global] Instance M_ret : MRet M := λ A (x : A) w, (x, w).

#[global] Instance M_bind : MBind M :=
  λ A B (f : A → M B) (m : M A) w, let '(a, w1) := m w in f a w1.

Definition steady_clock_now : M Z := λ w,
  match ticks w with
  | [] => (steady_clock w, w)
  | d :: rest =>
      let t := steady_clock w + Z.of_N d in
      (t, mkWorld (rate_limiters_ w) t rest)
  end.

Definition find_limiter (key : string) : M (option TokenBucket) := λ w,
  (rate_limiters_ w !! key, w).

(** [rate_limiters_[key] = limiter], also the write-back of a pointee. *)
Definition store_limiter (key : string) (b : TokenBucket) : M unit := λ w,
  (tt, mkWorld (<[key := b]> (rate_limiters_ w)) (steady_clock w) (ticks w)).

(** [std::make_shared<TokenBucket>(refill_rate, bucket_capacity)]. *)
Definition make_shared (refill_rate bucket_capacity : Q) : M TokenBucket :=
  now ← steady_clock_now;
  mret (Bucket.make refill_rate bucket_capacity now).

(** ** Messages *)

Record AllowRequest := mkAllowRequest {
  allow_key : string;
  allow_token_cost : N       (* uint32 *)
}.

Record AllowResponse := mkAllowResponse {
  allowed : bool;
  retry_after_ms : option Z; (* None: the cast to int64 is undefined *)
  quota_remaining : Q
}.

Record StatusResponse := mkStatusResponse {
  status_key : string;
  tokens_remaining : Q;
  refill_rate : Q;
  bucket_capacity : Q;
  last_refill_time_ms : Z
}.

Record ConfigureRequest := mkConfigureRequest {
  configure_key : string;
  configure_refill_rate : Q;
  configure_bucket_capacity : Q
}.

Record ConfigureResponse := mkConfigureResponse {
  success : bool;
  message : string
}.

(** ** RateLimiterServiceImpl *)

Module Service.

Definition invalid_message : string :=
  "Invalid rate limiter configuration. Values must be positive.".

Definition configured_message : string :=
  "Rate limiter configured successfully".

Definition default_refill_rate : Q := 20.
Definition default_capacity : Q := 50.

(** The constructor, run on an empty map. *)
Definition init : M unit :=
  b1 ← make_shared 10 100;
  _ ← store_limiter "flags_list" b1;
  b2 ← make_shared 5 50;
  store_limiter "flag_write" b2.

Definition get_or_create_limiter (key : string) : M TokenBucket :=
  it ← find_limiter key;
  match it with
  | Some limiter => mret limiter
  | None =>
      limiter ← make_shared default_refill_rate default_capacity;
      _ ← store_limiter key limiter;
      mret limiter
  end.

Definition Allow (request : AllowRequest) : M AllowResponse :=
  let key := allow_key request in
  let token_cost :=
    if (allow_token_cost request =? 0)%N then 1%N
    else allow_token_cost request in
  limiter ← get_or_create_limiter key;
  now ← steady_clock_now;
  let '(r, limiter1) := Bucket.allow token_cost now limiter in
  _ ← store_limiter key limiter1;
  mret (mkAllowResponse (ar_allowed r) (ar_retry_after_ms r)
          (ar_remaining r)).

(** [get_tokens] runs twice: for the response and for the log line. *)
Definition Status (key : string) : M StatusResponse :=
  limiter ← get_or_create_limiter key;
  t1 ← steady_clock_now;
  let '(tokens, limiter1) := Bucket.get_tokens t1 limiter in
  t2 ← steady_clock_now;
  let ms := Bucket.get_last_refill_ms t2 limiter1 in
  t3 ← steady_clock_now;
  let '(_, limiter2) := Bucket.get_tokens t3 limiter1 in
  _ ← store_limiter key limiter2;
  mret (mkStatusResponse key tokens (Bucket.get_refill_rate limiter1)
          (Bucket.get_capacity limiter1) ms).

Definition Configure (request : ConfigureRequest) : M ConfigureResponse :=
  let key := configure_key request in
  let refill_rate := configure_refill_rate request in
  let bucket_capacity := configure_bucket_capacity request in
  if Double.leb refill_rate 0 || Double.leb bucket_capacity 0 then
    mret (mkConfigureResponse false invalid_message)
  else
    limiter ← make_shared refill_rate bucket_capacity;
    _ ← store_limiter key limiter;
    mret (mkConfigureResponse true configured_message).

(** A freshly started process: empty map, then the constructor. *)
Definition start (clock0 : Z) (future : list N) : World :=
  snd (init (mkWorld ∅ clock0 future)).

End Service.

Inductive Rpc :=
| RpcAllow (request : AllowRequest)
| RpcStatus (key : string)
| RpcConfigure (request : ConfigureRequest).

Definition handle (rpc : Rpc) (w : World) : World :=
  match rpc with
  | RpcAllow request => snd (Service.Allow request w)
  | RpcStatus key => snd (Service.Status key w)
  | RpcConfigure request => snd (Service.Configure request w)
  end.

(** States the running service can be in. *)
Inductive reachable : World → Prop :=
| reachable_start clock0 future :
    reachable (Service.start clock0 future)
| reachable_step rpc w :
    reachable w → reachable (handle rpc w).

(** ** The bucket and the service in IEEE-754 binary64

    The same code once more, with the kernel's primitive floats in place
    of the rationals: every operation rounds as the machine does, and NaN
    and the infinities are there.  These definitions run the code bit for
    bit on concrete inputs. *)

Module Bucket64.

Import PrimFloat.

Record TokenBucket := mkTokenBucket {
  refill_rate_ : float;
  bucket_capacity_ : float;
  tokens_ : float;
  last_refill_ : Z
}.

Record AllowResult := mkAllowResult {
  ar_allowed : bool;
  ar_retry_after_ms : option Z;
  ar_remaining : float
}.

(** Conversion of an [int64_t] count to double, rounding to nearest. *)
Definition of_int64 (z : Z) : float :=
  if z =? - 2 ^ 63 then (- FloatOps.Z.ldexp one 63)%float
  else if z <? 0 then (- of_uint63 (Uint63.of_Z (- z)))%float
  else of_uint63 (Uint63.of_Z z).

(** [std::chrono::duration<double>(d).count()] for [d] in nanoseconds:
    the count as a double, divided by [1e9]. *)
Definition seconds_of_ns (d : Z) : float :=
  (of_int64 d / 1000000000)%float.

(** [std::min(a, b)] is [(b < a) ? b : a]. *)
Definition std_min (a b : float) : float := if (b <? a)%float then b else a.


Definition make (refill_rate bucket_capacity : float) (now : Z)
  : TokenBucket :=
  {| refill_rate_ := refill_rate;
     bucket_capacity_ := bucket_capacity;
     tokens_ := bucket_capacity;
     last_refill_ := now |}.

Definition new_tokens (now : Z) (b : TokenBucket) : float :=
  (seconds_of_ns (now - last_refill_ b) * refill_rate_ b)%float.

Definition refill (now : Z) (b : TokenBucket) : TokenBucket :=
  if (0 <? new_tokens now b)%float then
    {| refill_rate_ := refill_rate_ b;
       bucket_capacity_ := bucket_capacity_ b;
       tokens_ := std_min (bucket_capacity_ b)
                    (tokens_ b + new_tokens now b)%float;
       last_refill_ := now |}
  else b.

Definition allow (token_cost : N) (now : Z) (b : TokenBucket)
  : AllowResult * TokenBucket :=
  let b1 := refill now b in
  if (Binary64.of_uint32 token_cost <=? tokens_ b1)%float then
    let b2 := {| refill_rate_ := refill_rate_ b1;
                 bucket_capacity_ := bucket_capacity_ b1;
                 tokens_ := (tokens_ b1 - Binary64.of_uint32 token_cost)%float;
                 last_refill_ := last_refill_ b1 |} in
    (mkAllowResult true (Some 0) (tokens_ b2), b2)
  else
    (mkAllowResult false
       (Binary64.retry_after token_cost (tokens_ b1) (refill_rate_ b1))
       (tokens_ b1), b1).

Definition get_tokens (now : Z) (b : TokenBucket) : float * TokenBucket :=
  let b1 := refill now b in (tokens_ b1, b1).

Definition get_last_refill_ms (now : Z) (b : TokenBucket) : Z :=
  Double.ms_of_ns (now - last_refill_ b).

End Bucket64.

Module Service64.

Import PrimFloat.

Record World := mkWorld {
  rate_limiters_ : gmap string Bucket64.TokenBucket;
  steady_clock : Z;
  ticks : list N
}.

Definition M (A : Type) : Type := World → A * World.

#[global] Instance M64_ret : MRet M := λ A (x : A) w, (x, w).

#[global] Instance M64_bind : MBind M :=
  λ A B (f : A → M B) (m : M A) w, let '(a, w1) := m w in f a w1.

Definition steady_clock_now : M Z := λ w,
  match ticks w with
  | [] => (steady_clock w, w)
  | d :: rest =>
      let t := steady_clock w + Z.of_N d in
      (t, mkWorld (rate_limiters_ w) t rest)
  end.

Definition find_limiter (key : string) : M (option Bucket64.TokenBucket) :=
  λ w, (rate_limiters_ w !! key, w).

Definition store_limiter (key : string) (b : Bucket64.TokenBucket)
  : M unit := λ w,
  (tt, mkWorld (<[key := b]> (rate_limiters_ w)) (steady_clock w) (ticks w)).

Definition make_shared (refill_rate bucket_capacity : float)
  : M Bucket64.TokenBucket :=
  now ← steady_clock_now;
  mret (Bucket64.make refill_rate bucket_capacity now).

Record AllowResponse := mkAllowResponse {
  allowed : bool;
  retry_after_ms : option Z;
  quota_remaining : float
}.

Record StatusResponse := mkStatusResponse {
  status_key : string;
  tokens_remaining : float;
  refill_rate : float;
  bucket_capacity : float;
  last_refill_time_ms : Z
}.

Record ConfigureRequest := mkConfigureRequest {
  configure_key : string;
  configure_refill_rate : float;
  configure_bucket_capacity : float
}.

Definition init : M unit :=
  b1 ← make_shared 10 100;
  _ ← store_limiter "flags_list" b1;
  b2 ← make_shared 5 50;
  store_limiter "flag_write" b2.

Definition get_or_create_limiter (key : string) : M Bucket64.TokenBucket :=
  it ← find_limiter key;
  match it with
  | Some limiter => mret limiter
  | None =>
      limiter ← make_shared 20 50;
      _ ← store_limiter key limiter;
      mret limiter
  end.

Definition Allow (request : AllowRequest) : M AllowResponse :=
  let key := allow_key request in
  let token_cost :=
    if (allow_token_cost request =? 0)%N then 1%N
    else allow_token_cost request in
  limiter ← get_or_create_limiter key;
  now ← steady_clock_now;
  let '(r, limiter1) := Bucket64.allow token_cost now limiter in
  _ ← store_limiter key limiter1;
  mret (mkAllowResponse (Bucket64.ar_allowed r)
          (Bucket64.ar_retry_after_ms r) (Bucket64.ar_remaining r)).

Definition Status (key : string) : M StatusResponse :=
  limiter ← get_or_create_limiter key;
  t1 ← steady_clock_now;
  let '(tokens, limiter1) := Bucket64.get_tokens t1 limiter in
  t2 ← steady_clock_now;
  let ms := Bucket64.get_last_refill_ms t2 limiter1 in
  t3 ← steady_clock_now;
  let '(_, limiter2) := Bucket64.get_tokens t3 limiter1 in
  _ ← store_limiter key limiter2;
  mret (mkStatusResponse key tokens (Bucket64.refill_rate_ limiter1)
          (Bucket64.bucket_capacity_ limiter1) ms).

Definition Configure (request : ConfigureRequest) : M ConfigureResponse :=
  let key := configure_key request in
  let refill_rate := configure_refill_rate request in
  let bucket_capacity := configure_bucket_capacity request in
  if (refill_rate <=? 0)%float || (bucket_capacity <=? 0)%float then
    mret (mkConfigureResponse false Service.invalid_message)
  else
    limiter ← make_shared refill_rate bucket_capacity;
    _ ← store_limiter key limiter;
    mret (mkConfigureResponse true Service.configured_message).

Definition start (clock0 : Z) (future : list N) : World :=
  snd (init (mkWorld ∅ clock0 future)).

End Service64.

(** The same state with a clock that no longer advances: what follows
    happens at the instant of the last reading. *)
Definition freeze (w : World) : World :=
  mkWorld (rate_limiters_ w) (steady_clock w) [].

(** [n] calls of [allow(1)] one after the other, all at the reading [now];
    the result counts the calls that were allowed. *)
Fixpoint spend (n : nat) (now : Z) (b : TokenBucket) : nat :=
  match n with
  | O => O
  | S n' =>
      let '(r, b1) := Bucket.allow 1 now b in
      ((if ar_allowed r then 1 else 0) + spend n' now b1)%nat
  end.

(** What the service keeps true of every bucket it holds. *)
Definition limiter_ok (b : TokenBucket) : Prop :=
  positive_config b ∧ tokens_in_range b.

Definition limiters_ok (w : World) : Prop :=
  map_Forall (λ _ b, limiter_ok b) (rate_limiters_ w).

(** The key a request is about. *)
Definition rpc_key (rpc : Rpc) : string :=
  match rpc with
  | RpcAllow request => allow_key request
  | RpcStatus key => key
  | RpcConfigure request => configure_key request
  end.

(** The normalisation of the cost at the head of [Allow]. *)
Definition effective_cost (token_cost : N) : N :=
  if (token_cost =? 0)%N then 1%N else token_cost.

(** No bucket is stamped later than the clock has been read. *)
Definition stamps_ok (w : World) : Prop :=
  map_Forall (λ _ b, last_refill_ b <= steady_clock w) (rate_limiters_ w).

(** A whole session: the requests handled one after the other. *)
Definition run_rpcs (rpcs : list Rpc) (w : World) : World :=
  foldl (λ acc rpc, handle rpc acc) w rpcs.

(** * Properties *)

(** ** Comparisons and [std::min] *)

Section DoubleFacts.

Local Open Scope Q_scope.

Lemma ltb_lt (a b : Q) : Double.ltb a b = true ↔ a < b.
Proof.
  unfold Double.ltb. rewrite Qlt_alt.
  destruct (a ?= b); split; congruence.
Qed.

Lemma ltb_ge (a b : Q) : Double.ltb a b = false ↔ b <= a.
Proof.
  rewrite <- not_true_iff_false, ltb_lt. split; intros H; lra.
Qed.

Lemma geb_ge (a b : Q) : Double.geb a b = true ↔ b <= a.
Proof. apply Qle_bool_iff. Qed.

Lemma geb_lt (a b : Q) : Double.geb a b = false ↔ a < b.
Proof.
  rewrite <- not_true_iff_false, geb_ge. split; intros H; lra.
Qed.

Lemma leb_le (a b : Q) : Double.leb a b = true ↔ a <= b.
Proof. apply Qle_bool_iff. Qed.

Lemma leb_gt (a b : Q) : Double.leb a b = false ↔ b < a.
Proof.
  rewrite <- not_true_iff_false, leb_le. split; intros H; lra.
Qed.

Lemma std_min_cases (a b : Q) :
  (b < a ∧ Double.std_min a b = b) ∨ (a <= b ∧ Double.std_min a b = a).
Proof.
  unfold Double.std_min.
  destruct (Double.ltb b a) eqn:E.
  - left. apply ltb_lt in E. auto.
  - right. apply ltb_ge in E. auto.
Qed.

Lemma of_uint32_nonneg (n : N) : 0 <= Double.of_uint32 n.
Proof.
  unfold Double.of_uint32. change 0 with (inject_Z 0).
  rewrite <- Zle_Qle. lia.
Qed.

Lemma div_positive (x y : Q) : 0 < y → Double.div x y = Some (x / y).
Proof.
  intros Hy. unfold Double.div.
  destruct (Qeq_bool y 0) eqn:E; [| reflexivity].
  apply Qeq_bool_iff in E. lra.
Qed.

Lemma div_zero (x y : Q) : y == 0 → Double.div x y = None.
Proof.
  intros Hy. unfold Double.div.
  apply Qeq_bool_iff in Hy. rewrite Hy. reflexivity.
Qed.

(** On a non-negative value the cast rounds down: it is the floor. *)
Lemma truncate_floor (q : Q) : 0 <= q → Double.truncate q = Qfloor q.
Proof.
  destruct q as [n d]. unfold Qle, Double.truncate, Qfloor. simpl.
  intros H. apply Z.quot_div_nonneg; lia.
Qed.

Lemma seconds_of_ns_sign (d : Z) :
  (0 < Double.seconds_of_ns d ↔ (0 < d)%Z) ∧
  (0 <= Double.seconds_of_ns d ↔ (0 <= d)%Z).
Proof. unfold Double.seconds_of_ns, Qlt, Qle. simpl. lia. Qed.

End DoubleFacts.

(** ** TokenBucket::refill *)

Section RefillFacts.

Local Open Scope Q_scope.

Variables (now : Z) (b : TokenBucket).

Lemma refill_config :
  refill_rate_ (Bucket.refill now b) = refill_rate_ b ∧
  bucket_capacity_ (Bucket.refill now b) = bucket_capacity_ b.
Proof. unfold Bucket.refill. destruct (Double.ltb _ _); auto. Qed.

(** The two branches of [refill], with what each one knows. *)
Lemma refill_cases :
  (0 < Bucket.new_tokens now b ∧
   Bucket.refill now b =
     mkTokenBucket (refill_rate_ b) (bucket_capacity_ b)
       (Double.std_min (bucket_capacity_ b)
          (tokens_ b + Bucket.new_tokens now b)) now) ∨
  (Bucket.new_tokens now b <= 0 ∧ Bucket.refill now b = b).
Proof.
  unfold Bucket.refill.
  destruct (Double.ltb 0 (Bucket.new_tokens now b)) eqn:E.
  - left. apply ltb_lt in E. auto.
  - right. apply ltb_ge in E. auto.
Qed.

Lemma refill_in_range :
  tokens_in_range b → tokens_in_range (Bucket.refill now b).
Proof.
  intros [H0 Hc]. unfold tokens_in_range.
  destruct refill_cases as [[Hn ->] | [_ ->]]; [| auto]. simpl.
  destruct (std_min_cases (bucket_capacity_ b)
              (tokens_ b + Bucket.new_tokens now b)) as [[Hlt ->] | [Hle ->]];
    lra.
Qed.

(** Refilling never takes tokens away. *)
Lemma refill_tokens_ge :
  tokens_ b <= bucket_capacity_ b →
  tokens_ b <= tokens_ (Bucket.refill now b).
Proof.
  intros Hc.
  destruct refill_cases as [[Hn ->] | [_ ->]]; [| lra]. simpl.
  destruct (std_min_cases (bucket_capacity_ b)
              (tokens_ b + Bucket.new_tokens now b)) as [[Hlt ->] | [Hle ->]];
    lra.
Qed.

(** A second refill at the same reading changes nothing. *)
Lemma refill_idempotent :
  Bucket.refill now (Bucket.refill now b) = Bucket.refill now b.
Proof.
  destruct refill_cases as [[Hn E] | [Hn E]]; rewrite E.
  - unfold Bucket.refill at 1.
    unfold Bucket.new_tokens, Bucket.elapsed_seconds. simpl.
    rewrite Z.sub_diag.
    replace (Double.ltb 0 (Double.seconds_of_ns 0 * refill_rate_ b)) with false;
      [reflexivity |].
    symmetry. apply ltb_ge. unfold Double.seconds_of_ns, Qle. simpl. lia.
  - exact E.
Qed.

End RefillFacts.

(** ** TokenBucket::allow *)

Section AllowFacts.

Local Open Scope Q_scope.

Variables (token_cost : N) (now : Z) (b : TokenBucket).

Lemma allow_cases :
  (Double.of_uint32 token_cost <= tokens_ (Bucket.refill now b) ∧
   Bucket.allow token_cost now b =
     (mkAllowResult true (Some 0%Z)
        (tokens_ (Bucket.refill now b) - Double.of_uint32 token_cost),
      Bucket.set_tokens
        (tokens_ (Bucket.refill now b) - Double.of_uint32 token_cost)
        (Bucket.refill now b))) ∨
  (tokens_ (Bucket.refill now b) < Double.of_uint32 token_cost ∧
   Bucket.allow token_cost now b =
     (mkAllowResult false
        (Bucket.retry_after token_cost (tokens_ (Bucket.refill now b))
           (refill_rate_ (Bucket.refill now b)))
        (tokens_ (Bucket.refill now b)),
      Bucket.refill now b)).
Proof.
  unfold Bucket.allow. cbv zeta.
  destruct (Double.geb _ _) eqn:E.
  - left. apply geb_ge in E. auto.
  - right. apply geb_lt in E. auto.
Qed.

Lemma allow_config :
  refill_rate_ (snd (Bucket.allow token_cost now b)) = refill_rate_ b ∧
  bucket_capacity_ (snd (Bucket.allow token_cost now b)) = bucket_capacity_ b.
Proof.
  destruct allow_cases as [[_ ->] | [_ ->]]; simpl; apply refill_config.
Qed.

Lemma allow_in_range :
  tokens_in_range b → tokens_in_range (snd (Bucket.allow token_cost now b)).
Proof.
  intros Hb. pose proof (refill_in_range now b Hb) as [H0 Hc].
  pose proof (of_uint32_nonneg token_cost).
  destruct allow_cases as [[Hge ->] | [_ ->]]; unfold tokens_in_range; simpl;
    lra.
Qed.

(** A call takes the cost when it succeeds and nothing when it fails. *)
Lemma allow_tokens :
  tokens_ (snd (Bucket.allow token_cost now b)) =
    if ar_allowed (fst (Bucket.allow token_cost now b))
    then tokens_ (Bucket.refill now b) - Double.of_uint32 token_cost
    else tokens_ (Bucket.refill now b).
Proof. destruct allow_cases as [[_ ->] | [_ ->]]; reflexivity. Qed.

End AllowFacts.





(** What a rejected call leaves and reports. *)
Lemma rejected_allow_run (token_cost : N) (now : Z) (b : TokenBucket) :
  ar_allowed (fst (Bucket.allow token_cost now b)) = false →
  (tokens_ (Bucket.refill now b) < Double.of_uint32 token_cost)%Q ∧
  Bucket.allow token_cost now b =
    (mkAllowResult false
       (Bucket.retry_after token_cost (tokens_ (Bucket.refill now b))
          (refill_rate_ b))
       (tokens_ (Bucket.refill now b)),
     Bucket.refill now b).
Proof.
  destruct (refill_config now b) as [Hr _].
  destruct (allow_cases token_cost now b) as [[_ E] | [Hlt E]]; rewrite E;
    simpl; [discriminate |].
  intros _. rewrite Hr. auto.
Qed.

(** ** Claims about a single bucket *)

Section RetryAfter.

Local Open Scope Q_scope.

(** In exact arithmetic: on a rejection the reported wait is the missing
    tokens over the rate, in milliseconds, rounded DOWN to a whole
    millisecond. *)
Lemma retry_after_floor (token_cost : N) (tokens rate : Q) :
  0 < rate →
  tokens < Double.of_uint32 token_cost →
  (Qfloor ((Double.of_uint32 token_cost - tokens) / rate * 1000)
     <= Double.int64_max)%Z →
  Bucket.retry_after token_cost tokens rate =
    Some (Qfloor ((Double.of_uint32 token_cost - tokens) / rate * 1000)).
Proof.
  intros Hr Hlt Hmax. unfold Bucket.retry_after. cbv zeta.
  rewrite (div_positive _ _ Hr). simpl.
  set (x := (Double.of_uint32 token_cost - tokens) / rate * 1000) in *.
  assert (Hx : 0 <= x).
  { unfold x. apply Qmult_le_0_compat; [| lra].
    apply Qle_shift_div_l; lra. }
  unfold Double.static_cast_int64. cbv zeta.
  rewrite (truncate_floor _ Hx).
  assert (H0 : (0 <= Qfloor x)%Z).
  { change 0%Z with (Qfloor 0). apply Qfloor_resp_le, Hx. }
  replace (Double.int64_min <=? Qfloor x)%Z with true
    by (symmetry; apply Z.leb_le; unfold Double.int64_min; lia).
  replace (Qfloor x <=? Double.int64_max)%Z with true
    by (symmetry; apply Z.leb_le; exact Hmax).
  reflexivity.
Qed.

(** Whenever the exact wait is not a whole number of milliseconds, the
    reported one is a millisecond short of the rounded-up wait. *)
Lemma floor_below_ceiling (x : Q) :
  ¬ (inject_Z (Qfloor x) == x) → (Qfloor x + 1 = Qceiling x)%Z.
Proof.
  intros Hx.
  pose proof (Qfloor_le x) as Hf. pose proof (Qlt_floor x) as Hf'.
  pose proof (Qle_ceiling x) as Hc. pose proof (Qceiling_lt x) as Hc'.
  assert (H1 : (Qfloor x < Qceiling x)%Z) by (rewrite Zlt_Qlt; lra).
  assert (H2 : (Qceiling x - 1 < Qfloor x + 1)%Z) by (rewrite Zlt_Qlt; lra).
  lia.
Qed.

End RetryAfter.

(** C1 (the code rounds the wait down, not up).  A bucket with
    [refill_rate = 3] and [capacity = 10] holding one token rejects a
    request for two tokens with [retry_after_ms = 333]: the exact wait is
    333.33 ms, its rounding up is 334, and a caller that retries after the
    reported 333 ms is rejected again, while after 334 ms it is served.
    The same run through the service: [Configure] a key with rate 3 and
    capacity 10, [Allow] with cost 9, then [Allow] with cost 2. *)
Theorem retry_after_rounds_down :
  let b := mkTokenBucket 3 10 1 0 in
  Bucket.allow 2 0 b = (mkAllowResult false (Some 333) 1, b) ∧
  Qceiling ((Double.of_uint32 2 - 1) / 3 * 1000) = 334 ∧
  ar_allowed (fst (Bucket.allow 2 333000000 b)) = false ∧
  ar_allowed (fst (Bucket.allow 2 334000000 b)) = true ∧
  Binary64.retry_after 2 (Binary64.of_uint32 1) (Binary64.of_uint32 3) =
    Some 333 ∧
  fst (Service.Allow (mkAllowRequest "k" 2)
         (snd (Service.Allow (mkAllowRequest "k" 9)
                 (snd (Service.Configure (mkConfigureRequest "k" 3 10)
                         (Service.start 0 [])))))) =
    mkAllowResponse false (Some 333) 1.
Proof. vm_compute. repeat split; reflexivity. Qed.

(** The run cited with C1: rate 5, capacity 50, two tokens left, cost 10.
    The wait is a whole number of milliseconds, so 1600 either way. *)
Example retry_after_1600 :
  Bucket.allow 10 0 (mkTokenBucket 5 50 2 0) =
    (mkAllowResult false (Some 1600) 2, mkTokenBucket 5 50 2 0) ∧
  Binary64.retry_after 10 (Binary64.of_uint32 2) (Binary64.of_uint32 5) =
    Some 1600 ∧
  Qceiling ((Double.of_uint32 10 - 2) / 5 * 1000) = 1600.
Proof. vm_compute. repeat split; reflexivity. Qed.









(** C5.  A rejected allow leaves the bucket as the refill left it and
    reports that token count as remaining; get_tokens called next at the
    same clock reading returns the same count and changes nothing. *)
Theorem rejected_allow_preserves_tokens
    (token_cost : N) (now : Z) (b : TokenBucket) :
  ar_allowed (fst (Bucket.allow token_cost now b)) = false →
  snd (Bucket.allow token_cost now b) = Bucket.refill now b ∧
  ar_remaining (fst (Bucket.allow token_cost now b)) =
    tokens_ (Bucket.refill now b) ∧
  Bucket.get_tokens now (snd (Bucket.allow token_cost now b)) =
    (ar_remaining (fst (Bucket.allow token_cost now b)),
     snd (Bucket.allow token_cost now b)).
Proof.
  destruct (allow_cases token_cost now b) as [[_ ->] | [_ ->]]; simpl;
    [discriminate |].
  intros _. unfold Bucket.get_tokens. cbv zeta.
  rewrite refill_idempotent. auto.
Qed.

Lemma rejected_allow_preserves_tokens_witness :
  let b := mkTokenBucket 5 50 2 0 in
  Bucket.get_tokens 100000000 (snd (Bucket.allow 10 100000000 b)) =
    (ar_remaining (fst (Bucket.allow 10 100000000 b)),
     snd (Bucket.allow 10 100000000 b)).
Proof.
  apply (rejected_allow_preserves_tokens 10 100000000
           (mkTokenBucket 5 50 2 0)).
  reflexivity.
Defined.

(** ** The service: how each handler runs *)

Section Handlers.

Lemma steady_clock_now_run (w : World) :
  ∃ t rest,
    steady_clock_now w = (t, mkWorld (rate_limiters_ w) t rest) ∧
    steady_clock w <= t.
Proof.
  unfold steady_clock_now. destruct w as [m c [| d rest]]; simpl.
  - exists c, []. split; [reflexivity | lia].
  - exists (c + Z.of_N d), rest. split; [reflexivity | lia].
Qed.

Lemma steady_clock_now_frozen (w : World) :
  steady_clock_now (freeze w) = (steady_clock w, freeze w).
Proof. reflexivity. Qed.

Lemma make_shared_run (rate capacity : Q) (w : World) :
  ∃ t rest,
    make_shared rate capacity w =
      (Bucket.make rate capacity t, mkWorld (rate_limiters_ w) t rest).
Proof.
  destruct (steady_clock_now_run w) as (t & rest & E & _).
  exists t, rest. unfold make_shared, mbind, M_bind. rewrite E. reflexivity.
Qed.

(** The handle that comes back is the bucket stored under the key; it is
    the one that was there, or a full default bucket just inserted. *)
Lemma get_or_create_limiter_run (key : string) (w : World) :
  (∃ b, rate_limiters_ w !! key = Some b ∧
        Service.get_or_create_limiter key w = (b, w)) ∨
  (∃ t rest,
      rate_limiters_ w !! key = None ∧
      Service.get_or_create_limiter key w =
        (Bucket.make 20 50 t,
         mkWorld (<[key := Bucket.make 20 50 t]> (rate_limiters_ w)) t rest)).
Proof.
  unfold Service.get_or_create_limiter, find_limiter, mbind, M_bind.
  destruct (rate_limiters_ w !! key) as [b |] eqn:E.
  - left. exists b. auto.
  - right.
    destruct (make_shared_run Service.default_refill_rate
                Service.default_capacity w) as (t & rest & ->).
    exists t, rest. auto.
Qed.

Lemma Allow_run (request : AllowRequest) (w : World) :
  ∃ limiter w1 now rest,
    Service.get_or_create_limiter (allow_key request) w = (limiter, w1) ∧
    steady_clock_now w1 = (now, mkWorld (rate_limiters_ w1) now rest) ∧
    let token_cost :=
      if (allow_token_cost request =? 0)%N then 1%N
      else allow_token_cost request in
    let r := Bucket.allow token_cost now limiter in
    Service.Allow request w =
      (mkAllowResponse (ar_allowed (fst r)) (ar_retry_after_ms (fst r))
         (ar_remaining (fst r)),
       mkWorld (<[allow_key request := snd r]> (rate_limiters_ w1))
         now rest).
Proof.
  destruct (Service.get_or_create_limiter (allow_key request) w)
    as [limiter w1] eqn:E1.
  destruct (steady_clock_now_run w1) as (now & rest & E2 & _).
  exists limiter, w1, now, rest. repeat split; [exact E2 |].
  cbv zeta. unfold Service.Allow, mbind, M_bind. cbv zeta.
  rewrite E1, E2.
  destruct (Bucket.allow _ now limiter) as [r limiter1]. reflexivity.
Qed.

Lemma Status_run (key : string) (w : World) :
  ∃ limiter w1 t1 t2 t3 rest,
    Service.get_or_create_limiter key w = (limiter, w1) ∧
    (∃ rest1, steady_clock_now w1 =
                (t1, mkWorld (rate_limiters_ w1) t1 rest1)) ∧
    Service.Status key w =
      (mkStatusResponse key (tokens_ (Bucket.refill t1 limiter))
         (refill_rate_ (Bucket.refill t1 limiter))
         (bucket_capacity_ (Bucket.refill t1 limiter))
         (Bucket.get_last_refill_ms t2 (Bucket.refill t1 limiter)),
       mkWorld
         (<[key := Bucket.refill t3 (Bucket.refill t1 limiter)]>
            (rate_limiters_ w1))
         t3 rest).
Proof.
  destruct (Service.get_or_create_limiter key w) as [limiter w1] eqn:E1.
  destruct (steady_clock_now_run w1) as (t1 & rest1 & E2 & _).
  destruct (steady_clock_now_run (mkWorld (rate_limiters_ w1) t1 rest1))
    as (t2 & rest2 & E3 & _).
  destruct (steady_clock_now_run (mkWorld (rate_limiters_ w1) t2 rest2))
    as (t3 & rest3 & E4 & _).
  simpl in E3, E4.
  exists limiter, w1, t1, t2, t3, rest3.
  split; [reflexivity |]. split; [eauto |].
  unfold Service.Status, mbind, M_bind. rewrite E1, E2.
  unfold Bucket.get_tokens. cbv zeta. rewrite E3, E4. reflexivity.
Qed.

Lemma Configure_run (request : ConfigureRequest) (w : World) :
  ((configure_refill_rate request <= 0)%Q ∨
   (configure_bucket_capacity request <= 0)%Q) ∧
  Service.Configure request w =
    (mkConfigureResponse false Service.invalid_message, w)
  ∨
  ((0 < configure_refill_rate request)%Q ∧
   (0 < configure_bucket_capacity request)%Q) ∧
  ∃ t rest,
    Service.Configure request w =
      (mkConfigureResponse true Service.configured_message,
       mkWorld
         (<[configure_key request :=
              Bucket.make (configure_refill_rate request)
                (configure_bucket_capacity request) t]>
            (rate_limiters_ w))
         t rest).
Proof.
  unfold Service.Configure.
  destruct (Double.leb (configure_refill_rate request) 0) eqn:Er;
    [left; apply leb_le in Er; auto |].
  destruct (Double.leb (configure_bucket_capacity request) 0) eqn:Ec;
    [left; apply leb_le in Ec; auto |].
  right. apply leb_gt in Er, Ec. split; [auto |].
  destruct (make_shared_run (configure_refill_rate request)
              (configure_bucket_capacity request) w) as (t & rest & E).
  exists t, rest. simpl. unfold mbind, M_bind. rewrite E. reflexivity.
Qed.

End Handlers.

(** ** Claims about the service *)

(** A full bucket stays full through a refill, whatever the clock says. *)
Lemma refill_full (now : Z) (b : TokenBucket) :
  tokens_ b = bucket_capacity_ b →
  tokens_ (Bucket.refill now b) = bucket_capacity_ b.
Proof.
  intros Hfull.
  destruct (refill_cases now b) as [[Hn ->] | [_ ->]]; [| exact Hfull].
  simpl.
  destruct (std_min_cases (bucket_capacity_ b)
              (tokens_ b + Bucket.new_tokens now b)) as [[Hlt _] | [_ ->]];
    [| reflexivity].
  rewrite Hfull in Hlt. lra.
Qed.

(** C3.  Configure answers [success = false] exactly when the rate or the
    capacity is not positive; it then returns the validation message and
    leaves the whole state, map and buckets, as it was. *)
Theorem Configure_rejects_nonpositive (request : ConfigureRequest) (w : World) :
  (success (fst (Service.Configure request w)) = false ↔
   (configure_refill_rate request <= 0)%Q ∨
   (configure_bucket_capacity request <= 0)%Q) ∧
  (success (fst (Service.Configure request w)) = false →
   snd (Service.Configure request w) = w ∧
   message (fst (Service.Configure request w)) =
     "Invalid rate limiter configuration. Values must be positive.").
Proof.
  destruct (Configure_run request w)
    as [[Hbad ->] | [[Hr Hc] (t & rest & ->)]]; simpl.
  - split; [tauto | auto].
  - split; [| discriminate].
    split; [discriminate |]. intros [H | H]; lra.
Qed.

Lemma Configure_rejects_nonpositive_witness :
  let request := mkConfigureRequest "flag_write" 0 25 in
  let w := snd (Service.Allow (mkAllowRequest "flag_write" 7)
                  (Service.start 0 [5; 5; 5]%N)) in
  snd (Service.Configure request w) = w ∧
  message (fst (Service.Configure request w)) =
    "Invalid rate limiter configuration. Values must be positive.".
Proof.
  intros request w.
  apply (Configure_rejects_nonpositive request w).
  reflexivity.
Defined.

(** C6.  After a Configure that succeeded, Status for the same key reports
    a full bucket, [tokens_remaining = capacity], with the rate and the
    capacity just configured, whatever the state before and whatever the
    clock does in between. *)
Theorem Configure_resets_bucket (request : ConfigureRequest) (w : World) :
  success (fst (Service.Configure request w)) = true →
  let status :=
    fst (Service.Status (configure_key request)
           (snd (Service.Configure request w))) in
  tokens_remaining status = configure_bucket_capacity request ∧
  refill_rate status = configure_refill_rate request ∧
  bucket_capacity status = configure_bucket_capacity request ∧
  status_key status = configure_key request.
Proof.
  destruct (Configure_run request w)
    as [[_ ->] | [_ (t & rest & ->)]]; simpl; [discriminate |].
  intros _.
  set (b := Bucket.make (configure_refill_rate request)
              (configure_bucket_capacity request) t).
  set (w1 := mkWorld _ t rest).
  destruct (Status_run (configure_key request) w1)
    as (limiter & w2 & t1 & t2 & t3 & rest3 & Hget & _ & ->).
  assert (Hlim : limiter = b).
  { destruct (get_or_create_limiter_run (configure_key request) w1)
      as [(b' & Hb' & E) | (t' & rest' & Hnone & _)].
    - rewrite E in Hget. unfold w1 in Hb'. simpl in Hb'.
      rewrite lookup_insert_eq in Hb'. congruence.
    - unfold w1 in Hnone. simpl in Hnone.
      rewrite lookup_insert_eq in Hnone. discriminate. }
  subst limiter. simpl.
  destruct (refill_config t1 b) as [-> ->].
  rewrite refill_full by reflexivity. auto.
Qed.

Lemma Configure_resets_bucket_witness :
  let request := mkConfigureRequest "flag_write" 3 10 in
  let w := snd (Service.Allow (mkAllowRequest "flag_write" 48)
                  (Service.start 0 [1; 2; 3; 4; 5; 6; 7]%N)) in
  tokens_remaining
    (fst (Service.Status "flag_write" (snd (Service.Configure request w))))
  = 10%Q.
Proof.
  intros request w.
  apply (Configure_resets_bucket request w).
  reflexivity.
Defined.

(** C7.  Allow with cost 1 on a key the map does not hold creates the
    default bucket (rate 20, capacity 50), is allowed with
    [retry_after_ms = 0] and reports 49 tokens remaining, which is what
    the new bucket then holds. *)
Theorem Allow_unseen_key (key : string) (w : World) :
  rate_limiters_ w !! key = None →
  fst (Service.Allow (mkAllowRequest key 1) w) =
    mkAllowResponse true (Some 0) 49 ∧
  ∃ t, rate_limiters_ (snd (Service.Allow (mkAllowRequest key 1) w)) !! key =
         Some (mkTokenBucket 20 50 49 t).
Proof.
  intros Hnone.
  destruct (Allow_run (mkAllowRequest key 1) w)
    as (limiter & w1 & now & rest & Hget & _ & ->).
  simpl in *.
  destruct (get_or_create_limiter_run key w)
    as [(b & Hb & _) | (t & rest' & _ & E)]; [congruence |].
  rewrite E in Hget. injection Hget as <- <-.
  remember (Bucket.make 20 50 t) as b eqn:Eb.
  assert (Hcap : bucket_capacity_ b = 50%Q) by (subst b; reflexivity).
  assert (Hrate : refill_rate_ b = 20%Q) by (subst b; reflexivity).
  assert (Hfull : tokens_ (Bucket.refill now b) = 50%Q).
  { rewrite <- Hcap. apply refill_full. subst b. reflexivity. }
  destruct (refill_config now b) as [Hr Hc].
  destruct (allow_cases 1 now b) as [[_ ->] | [Hlt _]].
  - cbn [fst snd ar_allowed ar_retry_after_ms ar_remaining].
    rewrite Hfull. split; [reflexivity |].
    exists (last_refill_ (Bucket.refill now b)).
    rewrite lookup_insert_eq. unfold Bucket.set_tokens.
    rewrite Hr, Hc, Hrate, Hcap. reflexivity.
  - rewrite Hfull in Hlt. exfalso. revert Hlt. unfold Qlt. simpl. lia.
Qed.

Lemma Allow_unseen_key_witness :
  fst (Service.Allow (mkAllowRequest "fresh" 1)
         (Service.start 0 [3; 1; 4; 1; 5]%N)) =
    mkAllowResponse true (Some 0) 49.
Proof.
  apply (Allow_unseen_key "fresh" (Service.start 0 [3; 1; 4; 1; 5]%N)).
  reflexivity.
Defined.

(** C8.  Allow with cost 0 is Allow with cost 1: the same response and the
    same state afterwards, for every key and every state. *)
Theorem Allow_zero_cost_is_one (key : string) (w : World) :
  Service.Allow (mkAllowRequest key 0) w =
  Service.Allow (mkAllowRequest key 1) w.
Proof.
  unfold Service.Allow. cbn [allow_key allow_token_cost].
  change (0 =? 0)%N with true. change (1 =? 0)%N with false.
  reflexivity.
Qed.

(** ** What the service keeps true of its buckets *)

Section ServiceInvariant.

Local Open Scope Q_scope.

Lemma make_ok (rate capacity : Q) (t : Z) :
  0 < rate → 0 < capacity → limiter_ok (Bucket.make rate capacity t).
Proof.
  intros Hr Hc. repeat split; simpl; lra.
Qed.

Lemma refill_ok (now : Z) (b : TokenBucket) :
  limiter_ok b → limiter_ok (Bucket.refill now b).
Proof.
  intros [[Hr Hc] Hb]. destruct (refill_config now b) as [Er Ec].
  split; [| apply refill_in_range, Hb].
  unfold positive_config. rewrite Er, Ec. auto.
Qed.

Lemma allow_ok (token_cost : N) (now : Z) (b : TokenBucket) :
  limiter_ok b → limiter_ok (snd (Bucket.allow token_cost now b)).
Proof.
  intros [[Hr Hc] Hb]. destruct (allow_config token_cost now b) as [Er Ec].
  split; [| apply allow_in_range, Hb].
  unfold positive_config. rewrite Er, Ec. auto.
Qed.

Lemma store_ok (key : string) (b : TokenBucket) (w : World) t rest :
  limiter_ok b → limiters_ok w →
  limiters_ok (mkWorld (<[key := b]> (rate_limiters_ w)) t rest).
Proof.
  intros Hb Hw. unfold limiters_ok. simpl.
  apply map_Forall_insert_2; assumption.
Qed.

Lemma default_ok (t : Z) : limiter_ok (Bucket.make 20 50 t).
Proof. apply make_ok; reflexivity. Qed.

Lemma get_or_create_limiter_ok (key : string) (w : World) :
  limiters_ok w →
  limiter_ok (fst (Service.get_or_create_limiter key w)) ∧
  limiters_ok (snd (Service.get_or_create_limiter key w)).
Proof.
  intros Hw.
  destruct (get_or_create_limiter_run key w)
    as [(b & Hb & ->) | (t & rest & _ & ->)]; simpl.
  - split; [| exact Hw]. exact (map_Forall_lookup_1 _ _ _ _ Hw Hb).
  - split; [apply default_ok |]. apply store_ok; [apply default_ok | exact Hw].
Qed.

Lemma start_ok (clock0 : Z) (future : list N) :
  limiters_ok (Service.start clock0 future).
Proof.
  unfold Service.start, Service.init, mbind, M_bind.
  destruct (make_shared_run 10 100 (mkWorld ∅ clock0 future))
    as (t1 & rest1 & ->).
  cbn [store_limiter rate_limiters_ steady_clock ticks].
  match goal with
  | |- context [make_shared 5 50 ?w] =>
      destruct (make_shared_run 5 50 w) as (t2 & rest2 & ->)
  end.
  cbn [store_limiter rate_limiters_ steady_clock ticks snd].
  unfold limiters_ok. cbn [rate_limiters_].
  apply map_Forall_insert_2; [apply make_ok; reflexivity |].
  apply map_Forall_insert_2; [apply make_ok; reflexivity |].
  apply map_Forall_empty.
Qed.

Lemma handle_ok (rpc : Rpc) (w : World) :
  limiters_ok w → limiters_ok (handle rpc w).
Proof.
  intros Hw. destruct rpc as [request | key | request]; simpl.
  - destruct (Allow_run request w)
      as (limiter & w1 & now & rest & Hget & _ & ->).
    destruct (get_or_create_limiter_ok (allow_key request) w Hw)
      as [Hl Hw1].
    rewrite Hget in Hl, Hw1. simpl in Hl, Hw1 |- *.
    apply store_ok; [apply allow_ok, Hl | exact Hw1].
  - destruct (Status_run key w)
      as (limiter & w1 & t1 & t2 & t3 & rest & Hget & _ & ->).
    destruct (get_or_create_limiter_ok key w Hw) as [Hl Hw1].
    rewrite Hget in Hl, Hw1. simpl in Hl, Hw1 |- *.
    apply store_ok; [do 2 apply refill_ok; exact Hl | exact Hw1].
  - destruct (Configure_run request w)
      as [[_ ->] | [[Hr Hc] (t & rest & ->)]]; simpl; [exact Hw |].
    apply store_ok; [apply make_ok; assumption | exact Hw].
Qed.

Lemma reachable_ok (w : World) : reachable w → limiters_ok w.
Proof.
  induction 1 as [clock0 future | rpc w _ IH].
  - apply start_ok.
  - apply handle_ok, IH.
Qed.

End ServiceInvariant.

(** The constructor itself takes any numbers: with a zero rate a
    rejection has no finite wait to report. *)
Example make_unchecked :
  refill_rate_ (Bucket.make 0 50 0) = 0%Q ∧
  ar_retry_after_ms (fst (Bucket.allow 51 0 (Bucket.make 0 50 0))) = None.
Proof. vm_compute. split; reflexivity. Qed.

(** C10 (Configure lets NaN through).  [NaN <= 0] is false, so a
    Configure whose rate is NaN passes the check that "values must be
    positive": it answers success and the service then holds a bucket
    whose rate is not greater than zero.  A rejected Allow on that bucket
    divides by NaN and has no wait to report; a Configure whose capacity
    is NaN leaves a bucket whose tokens are NaN. *)
Theorem Configure_admits_NaN :
  let w0 := Service64.start 0 [] in
  let request :=
    Service64.mkConfigureRequest "n" PrimFloat.nan (Bucket64.of_int64 10) in
  let w1 := snd (Service64.Configure request w0) in
  PrimFloat.leb PrimFloat.nan (Bucket64.of_int64 0) = false ∧
  fst (Service64.Configure request w0) =
    mkConfigureResponse true "Rate limiter configured successfully" ∧
  Service64.rate_limiters_ w1 !! "n" =
    Some (Bucket64.mkTokenBucket PrimFloat.nan (Bucket64.of_int64 10)
            (Bucket64.of_int64 10) 0) ∧
  PrimFloat.ltb (Bucket64.of_int64 0) PrimFloat.nan = false ∧
  fst (Service64.Allow (mkAllowRequest "n" 11) w1) =
    Service64.mkAllowResponse false None (Bucket64.of_int64 10) ∧
  PrimFloat.is_nan
    (Service64.quota_remaining
       (fst (Service64.Allow (mkAllowRequest "m" 1)
               (snd (Service64.Configure
                       (Service64.mkConfigureRequest "m"
                          (Bucket64.of_int64 1) PrimFloat.nan) w0))))) = true.
Proof. vm_compute. repeat split; reflexivity. Qed.


(** C5 seen through the service: after a rejected Allow, a Status for the
    same key at the instant of that Allow reports as [tokens_remaining] the
    [quota_remaining] the Allow returned. *)
Lemma rejected_Allow_then_Status (request : AllowRequest) (w : World) :
  allowed (fst (Service.Allow request w)) = false →
  tokens_remaining
    (fst (Service.Status (allow_key request)
            (freeze (snd (Service.Allow request w))))) =
  quota_remaining (fst (Service.Allow request w)).
Proof.
  destruct (Allow_run request w)
    as (limiter & w1 & now & rest & _ & _ & ->).
  cbv zeta. cbn [fst snd allowed quota_remaining].
  set (cost := if (allow_token_cost request =? 0)%N then 1%N
               else allow_token_cost request).
  intros Hrej.
  destruct (rejected_allow_run cost now limiter Hrej) as [_ Hrun].
  rewrite Hrun. cbn [fst snd ar_remaining].
  set (w2 := freeze _).
  destruct (Status_run (allow_key request) w2)
    as (b & w3 & t1 & t2 & t3 & rest3 & Hget & [rest1 Hclock] & ->).
  destruct (get_or_create_limiter_run (allow_key request) w2)
    as [(b' & Hb' & E) | (t' & rest' & Hnone & _)].
  - rewrite E in Hget. injection Hget as <- <-.
    unfold w2, freeze in Hb', Hclock. simpl in Hb', Hclock.
    rewrite lookup_insert_eq in Hb'. injection Hb' as <-.
    unfold steady_clock_now in Hclock. simpl in Hclock.
    injection Hclock as <- _.
    simpl. rewrite refill_idempotent. reflexivity.
  - unfold w2, freeze in Hnone. simpl in Hnone.
    rewrite lookup_insert_eq in Hnone. discriminate.
Qed.

(** ** Calls one after the other at one instant *)

Section Spending.

Local Open Scope Q_scope.

Lemma Qfloor_unique (x : Q) (z : Z) :
  inject_Z z <= x → x < inject_Z (z + 1) → Qfloor x = z.
Proof.
  intros Hle Hlt.
  pose proof (Qfloor_le x) as Hf. pose proof (Qlt_floor x) as Hf'.
  assert (H1 : (Qfloor x < z + 1)%Z) by (rewrite Zlt_Qlt; lra).
  assert (H2 : (z < Qfloor x + 1)%Z) by (rewrite Zlt_Qlt; lra).
  lia.
Qed.

Lemma Qfloor_pred (x : Q) : Qfloor (x - 1) = (Qfloor x - 1)%Z.
Proof.
  pose proof (Qfloor_le x) as Hf. pose proof (Qlt_floor x) as Hf'.
  apply Qfloor_unique.
  - unfold Z.sub. rewrite inject_Z_plus, inject_Z_opp.
    change (inject_Z 1) with 1. lra.
  - replace (Qfloor x - 1 + 1)%Z with (Qfloor x) by lia.
    rewrite inject_Z_plus in Hf'. change (inject_Z 1) with 1 in Hf'. lra.
Qed.

(** With no refill due, [n] calls for one token each are allowed while
    a whole token is left: [min n (floor tokens)] of them succeed. *)
Lemma spend_count (n : nat) (now : Z) (b : TokenBucket) :
  0 <= tokens_ b →
  Bucket.new_tokens now b <= 0 →
  spend n now b = Z.to_nat (Z.min (Z.of_nat n) (Qfloor (tokens_ b))).
Proof.
  revert b. induction n as [| n IH]; intros b H0 Hnew.
  - simpl. assert (0 <= Qfloor (tokens_ b))%Z
      by (change 0%Z with (Qfloor 0); apply Qfloor_resp_le, H0).
    lia.
  - assert (Hre : Bucket.refill now b = b)
      by (destruct (refill_cases now b) as [[Hn _] | [_ E]]; [lra | exact E]).
    cbn [spend].
    destruct (allow_cases 1 now b) as [[Hge ->] | [Hlt ->]];
      rewrite Hre in *; cbn [ar_allowed].
    + change (Double.of_uint32 1) with 1 in *.
      rewrite IH; [| simpl; lra | exact Hnew].
      simpl tokens_. rewrite Qfloor_pred.
      assert (1 <= Qfloor (tokens_ b))%Z
        by (change 1%Z with (Qfloor 1); apply Qfloor_resp_le, Hge).
      lia.
    + change (Double.of_uint32 1) with 1 in *.
      rewrite IH by assumption.
      assert (Qfloor (tokens_ b) = 0%Z)
        by (apply Qfloor_unique; [exact H0 | exact Hlt]).
      lia.
Qed.

(** No double spending when the calls run one after the other: of [n]
    one-token calls on a full bucket of capacity [C], all at the instant
    the bucket was filled, exactly [min n (floor C)] are allowed. *)
Lemma spend_full_bucket (n : nat) (rate capacity : Q) (now : Z) :
  0 <= capacity →
  spend n now (Bucket.make rate capacity now) =
    Z.to_nat (Z.min (Z.of_nat n) (Qfloor capacity)).
Proof.
  intros Hc. apply (spend_count n now (Bucket.make rate capacity now) Hc).
  unfold Bucket.new_tokens, Bucket.elapsed_seconds. simpl.
  rewrite Z.sub_diag. unfold Double.seconds_of_ns, Qle. simpl. lia.
Qed.

End Spending.

(** * Further properties of the bucket *)

Section BucketTiming.

Local Open Scope Q_scope.

(** The value behind a reported wait: the floor of the exact wait. *)
Lemma retry_after_some (token_cost : N) (tokens rate : Q) (ms : Z) :
  0 < rate →
  tokens < Double.of_uint32 token_cost →
  Bucket.retry_after token_cost tokens rate = Some ms →
  ms = Qfloor ((Double.of_uint32 token_cost - tokens) / rate * 1000).
Proof.
  intros Hr Hlt. unfold Bucket.retry_after. cbv zeta.
  rewrite (div_positive _ _ Hr). simpl.
  set (x := (Double.of_uint32 token_cost - tokens) / rate * 1000).
  assert (Hx : 0 <= x).
  { unfold x. apply Qmult_le_0_compat; [| lra].
    apply Qle_shift_div_l; lra. }
  unfold Double.static_cast_int64. cbv zeta.
  rewrite (truncate_floor _ Hx).
  destruct (_ && _); [| discriminate]. intros [= <-]. reflexivity.
Qed.

End BucketTiming.

(** A call that asks for more than the capacity is rejected at every
    clock reading: no wait makes it succeed. *)
Theorem allow_above_capacity_rejected
    (token_cost : N) (now : Z) (b : TokenBucket) :
  tokens_in_range b →
  (bucket_capacity_ b < Double.of_uint32 token_cost)%Q →
  ar_allowed (fst (Bucket.allow token_cost now b)) = false ∧
  tokens_ (snd (Bucket.allow token_cost now b)) =
    tokens_ (Bucket.refill now b).
Proof.
  intros Hb Hbig.
  destruct (refill_in_range now b Hb) as [_ Hcap].
  destruct (refill_config now b) as [_ Hc]. rewrite Hc in Hcap.
  destruct (allow_cases token_cost now b) as [[Hge _] | [_ ->]];
    [lra | auto].
Qed.

Lemma allow_above_capacity_rejected_witness :
  ar_allowed
    (fst (Bucket.allow 51 86400000000000 (mkTokenBucket 5 50 50 0))) = false.
Proof.
  apply (allow_above_capacity_rejected 51 86400000000000
           (mkTokenBucket 5 50 50 0)).
  - split; unfold Qle; simpl; lia.
  - reflexivity.
Defined.

(** * Further properties of the service *)

(** ** Keys do not interfere *)

Lemma get_or_create_limiter_other (key other : string) (w : World) :
  other ≠ key →
  rate_limiters_ (snd (Service.get_or_create_limiter key w)) !! other =
    rate_limiters_ w !! other.
Proof.
  intros Hne.
  destruct (get_or_create_limiter_run key w)
    as [(b & _ & ->) | (t & rest & _ & ->)]; simpl; [reflexivity |].
  apply lookup_insert_ne. congruence.
Qed.

Lemma handle_other (rpc : Rpc) (other : string) (w : World) :
  other ≠ rpc_key rpc →
  rate_limiters_ (handle rpc w) !! other = rate_limiters_ w !! other.
Proof.
  intros Hne. destruct rpc as [request | key | request]; simpl in *.
  - destruct (Allow_run request w)
      as (limiter & w1 & now & rest & Hget & _ & ->). simpl.
    rewrite lookup_insert_ne by congruence.
    rewrite <- (get_or_create_limiter_other (allow_key request) other w Hne).
    rewrite Hget. reflexivity.
  - destruct (Status_run key w)
      as (limiter & w1 & t1 & t2 & t3 & rest & Hget & _ & ->). simpl.
    rewrite lookup_insert_ne by congruence.
    rewrite <- (get_or_create_limiter_other key other w Hne).
    rewrite Hget. reflexivity.
  - destruct (Configure_run request w)
      as [[_ ->] | [_ (t & rest & ->)]]; simpl; [reflexivity |].
    apply lookup_insert_ne. congruence.
Qed.

(** Whatever requests are handled for other keys, in any number and
    order, the entry of a key stays as it is: the same bucket with the
    same tokens and the same stamp, or still no entry. *)
Theorem other_keys_untouched (rpcs : list Rpc) (key : string) (w : World) :
  Forall (λ rpc, rpc_key rpc ≠ key) rpcs →
  rate_limiters_ (run_rpcs rpcs w) !! key = rate_limiters_ w !! key.
Proof.
  unfold run_rpcs. revert w.
  induction rpcs as [| rpc rpcs IH]; intros w Hall; [reflexivity |].
  apply Forall_cons in Hall as [Hne Hall]. simpl.
  rewrite (IH _ Hall). apply handle_other. congruence.
Qed.

Lemma other_keys_untouched_witness :
  let w := Service.start 0 [1; 1; 1; 1; 1; 1; 1; 1; 1]%N in
  rate_limiters_
    (run_rpcs [RpcAllow (mkAllowRequest "flag_write" 30);
               RpcConfigure (mkConfigureRequest "reports" 2 4);
               RpcStatus "unknown"] w) !! "flags_list" =
  rate_limiters_ w !! "flags_list".
Proof.
  intros w.
  apply (other_keys_untouched
           [RpcAllow (mkAllowRequest "flag_write" 30);
            RpcConfigure (mkConfigureRequest "reports" 2 4);
            RpcStatus "unknown"] "flags_list" w).
  repeat constructor; discriminate.
Defined.

(** No request removes a key, and only a Configure that succeeds for that
    very key changes the rate or the capacity of its bucket. *)
Theorem handle_keeps_config
    (rpc : Rpc) (key : string) (b : TokenBucket) (w : World) :
  rate_limiters_ w !! key = Some b →
  ∃ b1, rate_limiters_ (handle rpc w) !! key = Some b1 ∧
    ((refill_rate_ b1 = refill_rate_ b ∧
      bucket_capacity_ b1 = bucket_capacity_ b) ∨
     (∃ request,
        rpc = RpcConfigure request ∧ configure_key request = key ∧
        success (fst (Service.Configure request w)) = true ∧
        refill_rate_ b1 = configure_refill_rate request ∧
        bucket_capacity_ b1 = configure_bucket_capacity request)).
Proof.
  intros Hb.
  destruct (decide (key = rpc_key rpc)) as [-> | Hne];
    [| exists b; rewrite handle_other by exact Hne; auto].
  destruct rpc as [request | key | request]; simpl in *.
  - destruct (Allow_run request w)
      as (limiter & w1 & now & rest & Hget & _ & ->). simpl.
    destruct (get_or_create_limiter_run (allow_key request) w)
      as [(b' & Hb' & E) | (t & rest' & Hnone & _)]; [| congruence].
    rewrite E in Hget. injection Hget as <- <-.
    assert (b' = b) by congruence. subst b'.
    eexists. rewrite lookup_insert_eq. split; [reflexivity |].
    left. apply allow_config.
  - destruct (Status_run key w)
      as (limiter & w1 & t1 & t2 & t3 & rest & Hget & _ & ->). simpl.
    destruct (get_or_create_limiter_run key w)
      as [(b' & Hb' & E) | (t & rest' & Hnone & _)]; [| congruence].
    rewrite E in Hget. injection Hget as <- <-.
    assert (b' = b) by congruence. subst b'.
    eexists. rewrite lookup_insert_eq. split; [reflexivity |].
    left. destruct (refill_config t3 (Bucket.refill t1 b)) as [-> ->].
    apply refill_config.
  - destruct (Configure_run request w)
      as [[_ E] | [_ (t & rest & E)]].
    + rewrite E. simpl. exists b. auto.
    + rewrite E. simpl. eexists. rewrite lookup_insert_eq.
      split; [reflexivity |]. right. exists request.
      rewrite E. simpl. auto.
Qed.

Lemma handle_keeps_config_witness :
  let w := Service.start 0 [] in
  ∃ b1,
    rate_limiters_ (handle (RpcAllow (mkAllowRequest "flag_write" 60)) w)
      !! "flag_write" = Some b1.
Proof.
  intros w.
  destruct (handle_keeps_config (RpcAllow (mkAllowRequest "flag_write" 60))
              "flag_write" (mkTokenBucket 5 50 50 0) w)
    as (b1 & Hb1 & _); [reflexivity |].
  exists b1. exact Hb1.
Defined.

(** ** get_or_create_limiter *)

(** Asking again for the handle of a key returns the bucket the first
    call returned and changes nothing, not even the clock: a key gets one
    bucket, created at most once. *)
Theorem get_or_create_limiter_again (key : string) (w : World) :
  Service.get_or_create_limiter key
    (snd (Service.get_or_create_limiter key w)) =
  Service.get_or_create_limiter key w ∧
  rate_limiters_ (snd (Service.get_or_create_limiter key w)) !! key =
    Some (fst (Service.get_or_create_limiter key w)).
Proof.
  destruct (get_or_create_limiter_run key w)
    as [(b & Hb & E) | (t & rest & _ & E)]; rewrite E; simpl.
  - rewrite E. auto.
  - split; [| apply lookup_insert_eq].
    unfold Service.get_or_create_limiter, find_limiter, mbind, M_bind.
    simpl. rewrite lookup_insert_eq. reflexivity.
Qed.

(** ** Requests one after the other *)

(** After a Configure that succeeded, an Allow for the same key whose
    (normalised) cost fits in the capacity is allowed, with no wait,
    whatever the state before and whatever time has passed in between;
    the quota it reports lies between 0 and the capacity and is what the
    bucket, still with the configured rate and capacity, then holds. *)
Theorem Configure_then_Allow_admitted
    (request : ConfigureRequest) (token_cost : N) (w : World) :
  success (fst (Service.Configure request w)) = true →
  (Double.of_uint32 (effective_cost token_cost) <=
   configure_bucket_capacity request)%Q →
  let result :=
    Service.Allow (mkAllowRequest (configure_key request) token_cost)
      (snd (Service.Configure request w)) in
  allowed (fst result) = true ∧
  retry_after_ms (fst result) = Some 0 ∧
  (0 <= quota_remaining (fst result))%Q ∧
  (quota_remaining (fst result) <= configure_bucket_capacity request)%Q ∧
  ∃ b, rate_limiters_ (snd result) !! configure_key request = Some b ∧
       tokens_ b = quota_remaining (fst result) ∧
       refill_rate_ b = configure_refill_rate request ∧
       bucket_capacity_ b = configure_bucket_capacity request.
Proof.
  destruct (Configure_run request w)
    as [[_ ->] | [_ (t & rest & ->)]]; simpl; [discriminate |].
  intros _ Hfit.
  set (b := Bucket.make (configure_refill_rate request)
              (configure_bucket_capacity request) t).
  set (w1 := mkWorld _ t rest).
  destruct (Allow_run (mkAllowRequest (configure_key request) token_cost) w1)
    as (limiter & w2 & now & rest2 & Hget & _ & ->).
  cbn [allow_key allow_token_cost] in *. fold (effective_cost token_cost).
  destruct (get_or_create_limiter_run (configure_key request) w1)
    as [(b' & Hb' & E) | (t' & rest' & Hnone & _)];
    unfold w1 in *; simpl in *; rewrite lookup_insert_eq in *;
    [| discriminate].
  rewrite E in Hget. injection Hget as <- <-. injection Hb' as <-.
  assert (Hfull : tokens_ (Bucket.refill now b) =
                  configure_bucket_capacity request)
    by (apply (refill_full now b); reflexivity).
  destruct (refill_config now b) as [Hr Hc].
  pose proof (of_uint32_nonneg (effective_cost token_cost)) as Hcost.
  destruct (allow_cases (effective_cost token_cost) now b)
    as [[_ ->] | [Hlt _]]; [| rewrite Hfull in Hlt; lra].
  simpl. rewrite Hfull.
  split; [reflexivity |]. split; [reflexivity |].
  split; [lra |]. split; [lra |].
  eexists. split; [reflexivity |].
  unfold Bucket.set_tokens. cbn [tokens_ refill_rate_ bucket_capacity_].
  rewrite Hr, Hc. auto.
Qed.

Lemma Configure_then_Allow_admitted_witness :
  allowed
    (fst (Service.Allow (mkAllowRequest "reports" 0)
            (snd (Service.Configure (mkConfigureRequest "reports" (1 # 2) 3)
                    (Service.start 0 [4; 4; 4; 4; 4]%N))))) = true.
Proof.
  apply (Configure_then_Allow_admitted
           (mkConfigureRequest "reports" (1 # 2) 3) 0
           (Service.start 0 [4; 4; 4; 4; 4]%N)).
  - reflexivity.
  - unfold Qle. simpl. lia.
Defined.

(** Status for a key the map does not hold is not an error: it reports
    the default bucket, full (50 tokens, rate 20, capacity 50), and the
    map holds that bucket afterwards. *)
Theorem Status_unseen_key (key : string) (w : World) :
  rate_limiters_ w !! key = None →
  tokens_remaining (fst (Service.Status key w)) = 50%Q ∧
  refill_rate (fst (Service.Status key w)) = 20%Q ∧
  bucket_capacity (fst (Service.Status key w)) = 50%Q ∧
  ∃ t, rate_limiters_ (snd (Service.Status key w)) !! key =
         Some (mkTokenBucket 20 50 50 t).
Proof.
  intros Hnone.
  destruct (Status_run key w)
    as (limiter & w1 & t1 & t2 & t3 & rest & Hget & _ & ->).
  destruct (get_or_create_limiter_run key w)
    as [(b & Hb & _) | (t & rest' & _ & E)]; [congruence |].
  rewrite E in Hget. injection Hget as <- <-.
  remember (Bucket.make 20 50 t) as b eqn:Eb.
  assert (Hcap : bucket_capacity_ b = 50%Q) by (subst b; reflexivity).
  assert (Hrate : refill_rate_ b = 20%Q) by (subst b; reflexivity).
  destruct (refill_config t1 b) as [Hr1 Hc1].
  assert (Hfull1 : tokens_ (Bucket.refill t1 b) = 50%Q).
  { rewrite <- Hcap. apply refill_full. subst b. reflexivity. }
  destruct (refill_config t3 (Bucket.refill t1 b)) as [Hr3 Hc3].
  assert (Hfull3 : tokens_ (Bucket.refill t3 (Bucket.refill t1 b)) = 50%Q).
  { rewrite <- Hcap, <- Hc1. apply refill_full. congruence. }
  cbn [fst snd tokens_remaining refill_rate bucket_capacity rate_limiters_].
  repeat split; try congruence.
  exists (last_refill_ (Bucket.refill t3 (Bucket.refill t1 b))).
  rewrite lookup_insert_eq. f_equal.
  destruct (Bucket.refill t3 (Bucket.refill t1 b)) as [r c tk l].
  simpl in *. congruence.
Qed.

Lemma Status_unseen_key_witness :
  tokens_remaining
    (fst (Service.Status "fresh" (Service.start 0 [9; 9; 9; 9; 9; 9]%N))) =
  50%Q.
Proof.
  apply (Status_unseen_key "fresh" (Service.start 0 [9; 9; 9; 9; 9; 9]%N)).
  reflexivity.
Defined.

Lemma rejected_Allow_then_Status_witness :
  let request := mkAllowRequest "flag_write" 51 in
  let w := Service.start 0 [7; 7; 7; 7]%N in
  tokens_remaining
    (fst (Service.Status "flag_write"
            (freeze (snd (Service.Allow request w))))) =
  quota_remaining (fst (Service.Allow request w)).
Proof.
  intros request w.
  apply (rejected_Allow_then_Status request w).
  reflexivity.
Defined.

Lemma spend_full_bucket_witness :
  spend 8 0 (Bucket.make 20 (11 # 2) 0) =
  Z.to_nat (Z.min (Z.of_nat 8) (Qfloor (11 # 2))).
Proof.
  apply (spend_full_bucket 8 20 (11 # 2) 0).
  unfold Qle. simpl. lia.
Defined.

(** In a state where every bucket has a positive rate and capacity and
    [0 <= tokens <= capacity], an Allow answers with a quota between 0 and
    the capacity of the bucket it used, which is what that bucket then
    holds, and with a wait that is not negative whenever it has one to
    report; an allowed call reports no wait, and a rejected one reports a
    quota below the cost it asked for. *)
Theorem Allow_response_in_range (request : AllowRequest) (w : World) :
  limiters_ok w →
  let response := fst (Service.Allow request w) in
  (0 <= quota_remaining response)%Q ∧
  (∃ b, rate_limiters_ (snd (Service.Allow request w)) !! allow_key request
          = Some b ∧
        (quota_remaining response <= bucket_capacity_ b)%Q ∧
        quota_remaining response = tokens_ b) ∧
  (∀ ms, retry_after_ms response = Some ms → 0 <= ms) ∧
  (allowed response = true → retry_after_ms response = Some 0) ∧
  (allowed response = false →
   (quota_remaining response <
    Double.of_uint32 (effective_cost (allow_token_cost request)))%Q).
Proof.
  intros Hw.
  destruct (Allow_run request w)
    as (limiter & w1 & now & rest & Hget & _ & ->).
  fold (effective_cost (allow_token_cost request)).
  set (cost := effective_cost (allow_token_cost request)).
  destruct (get_or_create_limiter_ok (allow_key request) w Hw) as [Hl _].
  rewrite Hget in Hl. simpl in Hl.
  pose proof (allow_ok cost now limiter Hl) as [_ [Hlo Hhi]].
  destruct Hl as [[Hr _] Hb].
  pose proof (refill_in_range now limiter Hb) as [H0 _].
  destruct (refill_config now limiter) as [Hr1 _].
  cbv zeta. cbn [fst snd rate_limiters_ quota_remaining retry_after_ms allowed].
  destruct (allow_cases cost now limiter) as [[Hge E] | [Hlt E]];
    rewrite E in Hlo, Hhi |- *; simpl in Hlo, Hhi |- *;
    (split; [| split; [| split; [| split]]]).
  - exact Hlo.
  - eexists. rewrite lookup_insert_eq. split; [reflexivity |]. auto.
  - intros ms [= <-]. lia.
  - reflexivity.
  - discriminate.
  - exact Hlo.
  - eexists. rewrite lookup_insert_eq. split; [reflexivity |]. auto.
  - intros ms Hms. rewrite Hr1 in Hms.
    apply (retry_after_some _ _ _ _ Hr Hlt) in Hms. subst ms.
    change 0 with (Qfloor 0). apply Qfloor_resp_le.
    apply Qmult_le_0_compat; [| lra].
    apply Qle_shift_div_l; lra.
  - discriminate.
  - intros _. exact Hlt.
Qed.

Lemma Allow_response_in_range_witness :
  (0 <= quota_remaining
          (fst (Service.Allow (mkAllowRequest "flags_list" 101)
                  (Service.start 0 [5; 5; 5]%N))))%Q.
Proof.
  pose proof (Allow_response_in_range (mkAllowRequest "flags_list" 101)
                (Service.start 0 [5; 5; 5]%N) (start_ok 0 _)) as H.
  cbv zeta in H. exact (proj1 H).
Defined.

(** *** Stamps never run ahead of the clock *)

Lemma refill_stamp_le (now c : Z) (b : TokenBucket) :
  last_refill_ b <= c → now <= c → last_refill_ (Bucket.refill now b) <= c.
Proof.
  intros Hb Hn.
  destruct (refill_cases now b) as [[_ ->] | [_ ->]]; simpl; lia.
Qed.

Lemma allow_stamp_le (token_cost : N) (now c : Z) (b : TokenBucket) :
  last_refill_ b <= c → now <= c →
  last_refill_ (snd (Bucket.allow token_cost now b)) <= c.
Proof.
  intros Hb Hn.
  destruct (allow_cases token_cost now b) as [[_ ->] | [_ ->]]; simpl;
    apply refill_stamp_le; assumption.
Qed.

Lemma stamps_store (key : string) (b : TokenBucket) (w : World) t rest :
  stamps_ok w → steady_clock w <= t → last_refill_ b <= t →
  stamps_ok (mkWorld (<[key := b]> (rate_limiters_ w)) t rest).
Proof.
  intros Hw Ht Hb. unfold stamps_ok. simpl.
  apply map_Forall_insert_2; [exact Hb |].
  eapply map_Forall_impl; [exact Hw |]. simpl. intros _ b' Hb'. lia.
Qed.

Lemma steady_clock_now_le (w : World) t w1 :
  steady_clock_now w = (t, w1) →
  steady_clock w <= t ∧ steady_clock w1 = t ∧
  rate_limiters_ w1 = rate_limiters_ w.
Proof.
  destruct (steady_clock_now_run w) as (t' & rest & E & Hle).
  rewrite E. intros [= <- <-]. auto.
Qed.

Lemma get_or_create_limiter_stamps (key : string) (w : World) :
  stamps_ok w →
  last_refill_ (fst (Service.get_or_create_limiter key w)) <=
    steady_clock (snd (Service.get_or_create_limiter key w)) ∧
  stamps_ok (snd (Service.get_or_create_limiter key w)).
Proof.
  intros Hw.
  unfold Service.get_or_create_limiter, find_limiter, mbind, M_bind.
  destruct (rate_limiters_ w !! key) as [b |] eqn:E; simpl.
  - split; [| exact Hw]. exact (map_Forall_lookup_1 _ _ _ _ Hw E).
  - unfold make_shared, mbind, M_bind.
    destruct (steady_clock_now w) as [t w1] eqn:Et.
    destruct (steady_clock_now_le w t w1 Et) as (Hle & Hc & Hm).
    simpl. rewrite Hc, Hm. split; [lia |].
    apply stamps_store; [exact Hw | exact Hle | simpl; lia].
Qed.

Lemma make_shared_run_le (rate capacity : Q) (w : World) :
  ∃ t rest,
    make_shared rate capacity w =
      (Bucket.make rate capacity t, mkWorld (rate_limiters_ w) t rest) ∧
    steady_clock w <= t.
Proof.
  destruct (steady_clock_now_run w) as (t & rest & E & Hle).
  exists t, rest. unfold make_shared, mbind, M_bind. rewrite E. auto.
Qed.

Lemma start_stamps (clock0 : Z) (future : list N) :
  stamps_ok (Service.start clock0 future).
Proof.
  unfold Service.start, Service.init, mbind, M_bind.
  destruct (make_shared_run_le 10 100 (mkWorld ∅ clock0 future))
    as (t1 & rest1 & -> & _).
  cbn [store_limiter rate_limiters_ steady_clock ticks].
  match goal with
  | |- context [make_shared 5 50 ?w] =>
      destruct (make_shared_run_le 5 50 w) as (t2 & rest2 & -> & Hle)
  end.
  cbn [store_limiter rate_limiters_ steady_clock ticks snd] in Hle |- *.
  unfold stamps_ok. cbn [rate_limiters_ steady_clock].
  apply map_Forall_insert_2; [simpl; lia |].
  apply map_Forall_insert_2; [simpl; lia |].
  apply map_Forall_empty.
Qed.

Lemma Status_run_le (key : string) (w : World) :
  ∃ limiter w1 t1 t2 t3 rest,
    Service.get_or_create_limiter key w = (limiter, w1) ∧
    (steady_clock w1 <= t1 ∧ t1 <= t2 ∧ t2 <= t3) ∧
    Service.Status key w =
      (mkStatusResponse key (tokens_ (Bucket.refill t1 limiter))
         (refill_rate_ (Bucket.refill t1 limiter))
         (bucket_capacity_ (Bucket.refill t1 limiter))
         (Bucket.get_last_refill_ms t2 (Bucket.refill t1 limiter)),
       mkWorld
         (<[key := Bucket.refill t3 (Bucket.refill t1 limiter)]>
            (rate_limiters_ w1))
         t3 rest).
Proof.
  destruct (Service.get_or_create_limiter key w) as [limiter w1] eqn:E1.
  destruct (steady_clock_now_run w1) as (t1 & rest1 & E2 & H1).
  destruct (steady_clock_now_run (mkWorld (rate_limiters_ w1) t1 rest1))
    as (t2 & rest2 & E3 & H2).
  destruct (steady_clock_now_run (mkWorld (rate_limiters_ w1) t2 rest2))
    as (t3 & rest3 & E4 & H3).
  simpl in E3, E4, H2, H3.
  exists limiter, w1, t1, t2, t3, rest3.
  split; [reflexivity |]. split; [auto |].
  unfold Service.Status, mbind, M_bind. rewrite E1, E2.
  unfold Bucket.get_tokens. cbv zeta. rewrite E3, E4. reflexivity.
Qed.

Lemma handle_stamps (rpc : Rpc) (w : World) :
  stamps_ok w → stamps_ok (handle rpc w).
Proof.
  intros Hw. destruct rpc as [request | key | request]; simpl.
  - destruct (Allow_run request w)
      as (limiter & w1 & now & rest & Hget & Hclock & ->).
    destruct (get_or_create_limiter_stamps (allow_key request) w Hw)
      as [Hl Hw1].
    rewrite Hget in Hl, Hw1. simpl in Hl, Hw1 |- *.
    destruct (steady_clock_now_le _ _ _ Hclock) as (Hle & _ & _).
    apply stamps_store; [exact Hw1 | exact Hle |].
    apply allow_stamp_le; lia.
  - destruct (Status_run_le key w)
      as (limiter & w1 & t1 & t2 & t3 & rest & Hget & (H1 & H2 & H3) & ->).
    destruct (get_or_create_limiter_stamps key w Hw) as [Hl Hw1].
    rewrite Hget in Hl, Hw1. simpl in Hl, Hw1 |- *.
    apply stamps_store; [exact Hw1 | lia |].
    do 2 (apply refill_stamp_le; try lia).
  - unfold Service.Configure.
    destruct (_ || _); [exact Hw |].
    unfold mbind, M_bind.
    destruct (make_shared_run_le (configure_refill_rate request)
                (configure_bucket_capacity request) w)
      as (t & rest & -> & Hle).
    simpl. apply stamps_store; [exact Hw | exact Hle | simpl; lia].
Qed.

(** In a state where every bucket has a positive rate and capacity and
    [0 <= tokens <= capacity] and none is stamped later than the clock
    has been read, a Status answers with the key it was asked about, a
    token count between 0 and the capacity, a positive rate and capacity,
    and a time since the last refill that is not negative. *)
Theorem Status_response_in_range (key : string) (w : World) :
  limiters_ok w →
  stamps_ok w →
  let status := fst (Service.Status key w) in
  status_key status = key ∧
  (0 <= tokens_remaining status)%Q ∧
  (tokens_remaining status <= bucket_capacity status)%Q ∧
  (0 < refill_rate status)%Q ∧
  (0 < bucket_capacity status)%Q ∧
  0 <= last_refill_time_ms status.
Proof.
  intros Hok Hst.
  destruct (Status_run_le key w)
    as (limiter & w1 & t1 & t2 & t3 & rest & Hget & (H1 & H2 & H3) & ->).
  destruct (get_or_create_limiter_ok key w Hok) as [Hl _].
  destruct (get_or_create_limiter_stamps key w Hst) as [Hs _].
  rewrite Hget in Hl, Hs. simpl in Hl, Hs.
  destruct (refill_ok t1 limiter Hl) as [[Hr Hc] [H0 Hcap]].
  cbv zeta. simpl.
  repeat split; try assumption.
  unfold Bucket.get_last_refill_ms, Double.ms_of_ns.
  apply Z.quot_pos; [| lia].
  assert (last_refill_ (Bucket.refill t1 limiter) <= t2)
    by (apply refill_stamp_le; lia).
  lia.
Qed.

Lemma Status_response_in_range_witness :
  0 <= last_refill_time_ms
         (fst (Service.Status "flag_write"
                 (handle (RpcAllow (mkAllowRequest "flag_write" 3))
                    (Service.start 0 [2; 0; 3; 0; 1; 750000000]%N)))).
Proof.
  pose proof (Status_response_in_range "flag_write"
                (handle (RpcAllow (mkAllowRequest "flag_write" 3))
                   (Service.start 0 [2; 0; 3; 0; 1; 750000000]%N))
                (handle_ok _ _ (start_ok 0 _))
                (handle_stamps _ _ (start_stamps 0 _))) as H.
  cbv zeta in H. exact (proj2 (proj2 (proj2 (proj2 (proj2 H))))).
Defined.

(** Allow and Status keep the buckets in order: if every bucket in the
    map has a positive rate and capacity and [0 <= tokens <= capacity],
    the same holds after the call, for the bucket it used, for a default
    bucket it created and for all the others. *)
Theorem Allow_Status_keep_buckets_in_range
    (request : AllowRequest) (key : string) (w : World) :
  limiters_ok w →
  limiters_ok (snd (Service.Allow request w)) ∧
  limiters_ok (snd (Service.Status key w)).
Proof.
  intros Hw. split.
  - exact (handle_ok (RpcAllow request) w Hw).
  - exact (handle_ok (RpcStatus key) w Hw).
Qed.

Lemma Allow_Status_keep_buckets_in_range_witness :
  limiters_ok
    (snd (Service.Allow (mkAllowRequest "fresh" 7)
            (Service.start 0 [3; 3; 3; 3]%N))).
Proof.
  exact (proj1 (Allow_Status_keep_buckets_in_range
                  (mkAllowRequest "fresh" 7) "fresh"
                  (Service.start 0 [3; 3; 3; 3]%N) (start_ok 0 _))).
Defined.

(** * Allow and Status agree *)

Lemma refill_after_allow (token_cost : N) (now : Z) (b : TokenBucket) :
  Bucket.refill now (snd (Bucket.allow token_cost now b)) =
  snd (Bucket.allow token_cost now b).
Proof.
  destruct (allow_cases token_cost now b) as [[_ ->] | [_ ->]];
    cbn [snd]; [| apply refill_idempotent].
  assert (Hn : (Bucket.new_tokens now (Bucket.refill now b) <= 0)%Q).
  { destruct (refill_cases now b) as [[_ ->] | [Hle ->]]; [| exact Hle].
    unfold Bucket.new_tokens, Bucket.elapsed_seconds. simpl.
    rewrite Z.sub_diag. unfold Double.seconds_of_ns, Qle. simpl. lia. }
  unfold Bucket.refill at 1.
  change (Bucket.new_tokens now (Bucket.set_tokens _ (Bucket.refill now b)))
    with (Bucket.new_tokens now (Bucket.refill now b)).
  apply ltb_ge in Hn. rewrite Hn. reflexivity.
Qed.

(** Allowed or rejected, an Allow and a Status for the same key at the
    instant of that Allow agree: Status reports as [tokens_remaining] the
    [quota_remaining] the Allow returned. *)
Theorem Allow_then_Status_agree (request : AllowRequest) (w : World) :
  tokens_remaining
    (fst (Service.Status (allow_key request)
            (freeze (snd (Service.Allow request w))))) =
  quota_remaining (fst (Service.Allow request w)).
Proof.
  destruct (Allow_run request w)
    as (limiter & w1 & now & rest & _ & _ & ->).
  cbv zeta. cbn [fst snd quota_remaining].
  set (cost := if (allow_token_cost request =? 0)%N then 1%N
               else allow_token_cost request).
  set (w2 := freeze _).
  destruct (Status_run (allow_key request) w2)
    as (b & w3 & t1 & t2 & t3 & rest3 & Hget & [rest1 Hclock] & ->).
  destruct (get_or_create_limiter_run (allow_key request) w2)
    as [(b' & Hb' & E) | (t' & rest' & Hnone & _)];
    unfold w2, freeze in *; simpl in *; rewrite lookup_insert_eq in *;
    [| discriminate].
  rewrite E in Hget. injection Hget as <- <-. injection Hb' as <-.
  unfold steady_clock_now in Hclock. simpl in Hclock.
  injection Hclock as <- _.
  rewrite refill_after_allow.
  destruct (allow_cases cost now limiter) as [[_ ->] | [_ ->]]; reflexivity.
Qed.

(** Asked twice in a row, Status never reports fewer tokens the second
    time: reading the bucket does not spend it. *)
Theorem Status_twice_nondecreasing (key : string) (w : World) :
  reachable w →
  (tokens_remaining (fst (Service.Status key w)) <=
   tokens_remaining
     (fst (Service.Status key (snd (Service.Status key w)))))%Q.
Proof.
  intros Hw. apply reachable_ok in Hw.
  destruct (Status_run key w)
    as (limiter & w1 & t1 & t2 & t3 & rest & Hget & _ & ->).
  destruct (get_or_create_limiter_ok key w Hw) as [Hl _].
  rewrite Hget in Hl. simpl in Hl.
  cbn [fst snd tokens_remaining].
  set (w2 := mkWorld _ t3 rest).
  destruct (Status_run key w2)
    as (b & w3 & u1 & u2 & u3 & rest3 & Hget2 & _ & ->).
  destruct (get_or_create_limiter_run key w2)
    as [(b' & Hb' & E) | (t' & rest' & Hnone & _)];
    unfold w2 in *; simpl in *; rewrite lookup_insert_eq in *;
    [| discriminate].
  rewrite E in Hget2. injection Hget2 as <- <-. injection Hb' as <-.
  pose proof (refill_ok t1 limiter Hl) as Hl1.
  pose proof (refill_ok t3 _ Hl1) as Hl3.
  pose proof (refill_tokens_ge t3 _ (proj2 (proj2 Hl1))).
  pose proof (refill_tokens_ge u1 _ (proj2 (proj2 Hl3))).
  lra.
Qed.

Lemma Status_twice_nondecreasing_witness :
  let w := handle (RpcAllow (mkAllowRequest "flag_write" 40))
             (Service.start 0 [1; 1; 1; 500000000; 1; 800000000; 9; 9]%N) in
  (tokens_remaining (fst (Service.Status "flag_write" w)) <=
   tokens_remaining
     (fst (Service.Status "flag_write"
             (snd (Service.Status "flag_write" w)))))%Q.
Proof.
  intros w.
  apply (Status_twice_nondecreasing "flag_write" w).
  apply reachable_step, reachable_start.
Defined.

(** * The binary64 bucket: what holds for every double

    Facts about [Bucket64] that need no property of rounding: they hold
    for every double, NaN and the infinities included. *)

Section Binary64Facts.

Import PrimFloat SpecFloat FloatOps FloatAxioms.

Lemma float_ltb_leb (x y : float) :
  (x <? y)%float = true → (x <=? y)%float = true.
Proof.
  rewrite ltb_spec, leb_spec. unfold SFltb, SFleb.
  destruct (SFcompare _ _) as [[] |]; congruence.
Qed.

Lemma SFcompare_refl (a : spec_float) :
  a ≠ S754_nan → SFcompare a a = Some Eq.
Proof.
  destruct a as [s | s | | s m e]; simpl; try congruence; intros _.
  - destruct s; reflexivity.
  - destruct s; rewrite Z.compare_refl;
      change (PosDef.Pos.compare_cont Eq m m) with (Pos.compare m m);
      rewrite Pos.compare_refl; reflexivity.
Qed.

(** Whatever compares [<=] to a double, that double is not NaN. *)
Lemma float_leb_refl_r (x y : float) :
  (x <=? y)%float = true → (y <=? y)%float = true.
Proof.
  rewrite !leb_spec. unfold SFleb. intros H.
  rewrite SFcompare_refl; [reflexivity |].
  intros E. rewrite E in H. destruct (Prim2SF x); discriminate.
Qed.

(** No time elapsed: the new tokens are [0 * rate], which is zero or NaN
    and in either case not greater than zero. *)
Lemma float_zero_times (r : float) :
  (0 <? Bucket64.seconds_of_ns 0 * r)%float = false.
Proof.
  rewrite ltb_spec, mul_spec.
  change (Prim2SF (Bucket64.seconds_of_ns 0)) with (S754_zero false).
  change (Prim2SF 0%float) with (S754_zero false).
  destruct (Prim2SF r) as [s | s | | s m e]; reflexivity.
Qed.

Lemma refill64_same_reading (b : Bucket64.TokenBucket) :
  Bucket64.refill (Bucket64.last_refill_ b) b = b.
Proof.
  unfold Bucket64.refill, Bucket64.new_tokens. rewrite Z.sub_diag.
  rewrite float_zero_times. reflexivity.
Qed.

Lemma refill64_cases (now : Z) (b : Bucket64.TokenBucket) :
  ((0 <? Bucket64.new_tokens now b)%float = true ∧
   Bucket64.refill now b =
     Bucket64.mkTokenBucket (Bucket64.refill_rate_ b)
       (Bucket64.bucket_capacity_ b)
       (Bucket64.std_min (Bucket64.bucket_capacity_ b)
          (Bucket64.tokens_ b + Bucket64.new_tokens now b)%float) now) ∨
  ((0 <? Bucket64.new_tokens now b)%float = false ∧
   Bucket64.refill now b = b).
Proof.
  unfold Bucket64.refill.
  destruct (0 <? Bucket64.new_tokens now b)%float; auto.
Qed.

(** After a refill no new tokens are due at the same reading. *)
Lemma new_tokens64_after_refill (now : Z) (b : Bucket64.TokenBucket) :
  (0 <? Bucket64.new_tokens now (Bucket64.refill now b))%float = false.
Proof.
  destruct (refill64_cases now b) as [[_ ->] | [E ->]]; [| exact E].
  unfold Bucket64.new_tokens. cbn [Bucket64.last_refill_].
  rewrite Z.sub_diag. apply float_zero_times.
Qed.

(** A bucket that differs from a refilled one in its tokens only is not
    refilled at the same reading either. *)
Lemma refill64_settled (now : Z) (b : Bucket64.TokenBucket) (t : float) :
  let b1 := Bucket64.refill now b in
  let b2 := Bucket64.mkTokenBucket (Bucket64.refill_rate_ b1)
              (Bucket64.bucket_capacity_ b1) t (Bucket64.last_refill_ b1) in
  Bucket64.refill now b2 = b2.
Proof.
  cbv zeta. unfold Bucket64.refill at 1.
  change (Bucket64.new_tokens now (Bucket64.mkTokenBucket _ _ t _))
    with (Bucket64.new_tokens now (Bucket64.refill now b)).
  rewrite new_tokens64_after_refill. reflexivity.
Qed.

End Binary64Facts.

(** In binary64, for every bucket and every clock reading: the refill
    keeps rate and capacity; it never lifts the tokens above the capacity;
    at the reading of the last refill it changes nothing; whenever it
    changes the bucket it stamps it with the current reading; and a second
    refill at the same reading changes nothing more. *)
Theorem refill64_capped_and_idempotent
    (now : Z) (b : Bucket64.TokenBucket) :
  (Bucket64.refill_rate_ (Bucket64.refill now b) = Bucket64.refill_rate_ b ∧
   Bucket64.bucket_capacity_ (Bucket64.refill now b) =
     Bucket64.bucket_capacity_ b) ∧
  (PrimFloat.leb (Bucket64.tokens_ b) (Bucket64.bucket_capacity_ b) = true →
   PrimFloat.leb (Bucket64.tokens_ (Bucket64.refill now b))
     (Bucket64.bucket_capacity_ b) = true) ∧
  (now = Bucket64.last_refill_ b → Bucket64.refill now b = b) ∧
  (Bucket64.refill now b = b ∨
   Bucket64.last_refill_ (Bucket64.refill now b) = now) ∧
  Bucket64.refill now (Bucket64.refill now b) = Bucket64.refill now b.
Proof.
  split; [| split; [| split; [| split]]].
  - destruct (refill64_cases now b) as [[_ ->] | [_ ->]]; auto.
  - intros Hle.
    destruct (refill64_cases now b) as [[_ ->] | [_ ->]]; [| exact Hle].
    cbn [Bucket64.tokens_]. unfold Bucket64.std_min.
    destruct (PrimFloat.ltb _ (Bucket64.bucket_capacity_ b)) eqn:E2.
    + apply float_ltb_leb, E2.
    + exact (float_leb_refl_r _ _ Hle).
  - intros ->. apply refill64_same_reading.
  - destruct (refill64_cases now b) as [[_ ->] | [_ ->]]; auto.
  - pose proof (refill64_settled now b
                  (Bucket64.tokens_ (Bucket64.refill now b))) as H.
    cbv zeta in H. destruct (Bucket64.refill now b). exact H.
Qed.

Lemma refill64_capped_and_idempotent_witness :
  let b := Bucket64.mkTokenBucket (Bucket64.of_int64 100)
             (Bucket64.of_int64 1000) (Bucket64.of_int64 990) 0 in
  PrimFloat.leb (Bucket64.tokens_ (Bucket64.refill 570000000 b))
    (Bucket64.of_int64 1000) = true.
Proof.
  intros b.
  apply (refill64_capped_and_idempotent 570000000 b).
  reflexivity.
Defined.

(** In binary64, for every bucket, cost and clock reading: an allowed
    call reports no wait and the tokens it left; a rejected call leaves
    the bucket as the refill left it and reports its tokens; either way
    get_tokens called next at the same reading returns the count the call
    reported and changes nothing. *)
Theorem allow64_then_get_tokens
    (token_cost : N) (now : Z) (b : Bucket64.TokenBucket) :
  (Bucket64.ar_allowed (fst (Bucket64.allow token_cost now b)) = true →
   Bucket64.ar_retry_after_ms (fst (Bucket64.allow token_cost now b)) =
     Some 0) ∧
  (Bucket64.ar_allowed (fst (Bucket64.allow token_cost now b)) = false →
   snd (Bucket64.allow token_cost now b) = Bucket64.refill now b) ∧
  Bucket64.get_tokens now (snd (Bucket64.allow token_cost now b)) =
    (Bucket64.ar_remaining (fst (Bucket64.allow token_cost now b)),
     snd (Bucket64.allow token_cost now b)).
Proof.
  pose proof (refill64_settled now b) as Hsettled. cbv zeta in Hsettled.
  unfold Bucket64.allow, Bucket64.get_tokens. cbv zeta.
  destruct (PrimFloat.leb _ (Bucket64.tokens_ (Bucket64.refill now b)));
    cbn [fst snd Bucket64.ar_allowed Bucket64.ar_retry_after_ms
         Bucket64.ar_remaining].
  - split; [auto |]. split; [discriminate |].
    rewrite Hsettled. reflexivity.
  - split; [discriminate |]. split; [auto |].
    specialize (Hsettled (Bucket64.tokens_ (Bucket64.refill now b))).
    destruct (Bucket64.refill now b) as [r c t l].
    simpl in Hsettled |- *. rewrite Hsettled. reflexivity.
Qed.

Lemma allow64_then_get_tokens_witness :
  let b := Bucket64.mkTokenBucket (Bucket64.of_int64 100)
             (Bucket64.of_int64 1000) (Bucket64.of_int64 0) 0 in
  snd (Bucket64.allow 57 570000000 b) = Bucket64.refill 570000000 b.
Proof.
  intros b.
  apply (allow64_then_get_tokens 57 570000000 b).
  reflexivity.
Defined.
